(** * JobQueue: a shallow embedding of [src/JobQueue.ts]

    The class [JobQueue] is an asynchronous scheduler running on the
    single-threaded JavaScript event loop.  Its methods are embedded as
    functions on a [World]: the fields of the object, the part of the
    runtime the methods talk to (the clock read by [Date.now()], the
    timers created by [setTimeout], the suspended [async] calls), and a
    trace of the observable calls ([shift], [fn(...args)], [resolve],
    [reject]).

    Every [await] of the source is a suspension point.  A suspended call
    is kept in the table [jobs] and is resumed by an [Event] chosen by the
    environment, so that a theorem quantified over [list Event] speaks
    about every interleaving the event loop can produce.

    Numbers are integers ([Z]): timestamps and durations are milliseconds,
    the limits of the options are whole numbers.  The caller-supplied task
    [fn] is opaque: its settlement is the event [TaskSettles]. *)

From stdpp Require Import gmap strings list fin_maps.
From Stdlib Require Import ZArith Lia.

Local Open Scope Z_scope.

(** ** Data *)

(** [src/types.ts]: [JobQueueOptions]; an absent field is [None]. *)
Record JobQueueOptions := mkOptions {
  opt_concurrencyLimit : option Z;
  opt_rateLimit : option Z;
  opt_timeoutLimit : option Z;
}.

(** [src/types.ts]: [JobResult<T>]; the task's value is a string, as in
    the test suite. *)
Record JobResult := mkJobResult {
  result : string;
  queueTime : Z;
  executionTime : Z;
}.

(** How the promise returned by [fn(...args)] settles. *)
Inductive Outcome :=
| Returned (v : string)
| Threw (msg : string).

(** What the promise returned by [schedule] receives: [resolve(r)] or
    [reject(new Error(msg))]. *)
Inductive Settlement :=
| Resolved (r : JobResult)
| Rejected (msg : string).

(** An element of [this.queue].  [eid] names the promise of the
    [schedule] call, that is the pair [resolve], [reject]; the closure
    [job] is determined by the [queueStartTime] it captured. *)
Record Entry := mkEntry {
  eid : nat;
  queueStartTime : Z;
}.

(** Where a dequeued [job()] call is suspended. *)
Inductive Phase :=
| Cleared (qst : Z)
    (* [enforceRateLimit] returned; [job] awaits its promise *)
| RateWaiting (qst now due : Z)
    (* inside [enforceRateLimit], awaiting the timer due at [due];
       [now] is the local constant read before the wait *)
| Racing (qt startTime : Z)
    (* inside [executeJob], awaiting [Promise.race]; nothing settled yet *)
| Raced (qt startTime : Z) (o : Outcome).
    (* [Promise.race] settled with [o]; [executeJob] not yet resumed *)

Record World := mkWorld {
  (* the fields of the object *)
  concurrencyLimit : Z;
  rateLimit : option Z;            (* [None] is [Infinity] *)
  timeoutLimit : Z;                (* milliseconds *)
  activeJobs : Z;
  queue : list Entry;
  isDisposed : bool;
  jobStartTimes : list Z;
  (* the runtime *)
  clock : Z;                       (* [Date.now()] *)
  nextId : nat;                    (* names the next [schedule] call *)
  jobs : gmap nat Phase;           (* suspended [job()] calls *)
  timeouts : gmap nat Z;           (* pending timeout timers: due time *)
  (* the trace *)
  accepted : list (nat * Z);       (* [queue.push], with [queueStartTime] *)
  dequeued : list (nat * Z);       (* [queue.shift()], with the time *)
  started : list (nat * Z);        (* [fn(...args)], with the time *)
  settled : list (nat * Settlement); (* [resolve] and [reject] calls *)
}.

Definition set_activeJobs (x : Z) (w : World) : World :=
  mkWorld (concurrencyLimit w) (rateLimit w) (timeoutLimit w) x (queue w)
    (isDisposed w) (jobStartTimes w) (clock w) (nextId w) (jobs w)
    (timeouts w) (accepted w) (dequeued w) (started w) (settled w).

Definition set_queue (x : list Entry) (w : World) : World :=
  mkWorld (concurrencyLimit w) (rateLimit w) (timeoutLimit w) (activeJobs w) x
    (isDisposed w) (jobStartTimes w) (clock w) (nextId w) (jobs w)
    (timeouts w) (accepted w) (dequeued w) (started w) (settled w).

Definition set_isDisposed (x : bool) (w : World) : World :=
  mkWorld (concurrencyLimit w) (rateLimit w) (timeoutLimit w) (activeJobs w)
    (queue w) x (jobStartTimes w) (clock w) (nextId w) (jobs w)
    (timeouts w) (accepted w) (dequeued w) (started w) (settled w).

Definition set_jobStartTimes (x : list Z) (w : World) : World :=
  mkWorld (concurrencyLimit w) (rateLimit w) (timeoutLimit w) (activeJobs w)
    (queue w) (isDisposed w) x (clock w) (nextId w) (jobs w)
    (timeouts w) (accepted w) (dequeued w) (started w) (settled w).

Definition set_clock (x : Z) (w : World) : World :=
  mkWorld (concurrencyLimit w) (rateLimit w) (timeoutLimit w) (activeJobs w)
    (queue w) (isDisposed w) (jobStartTimes w) x (nextId w) (jobs w)
    (timeouts w) (accepted w) (dequeued w) (started w) (settled w).

Definition set_nextId (x : nat) (w : World) : World :=
  mkWorld (concurrencyLimit w) (rateLimit w) (timeoutLimit w) (activeJobs w)
    (queue w) (isDisposed w) (jobStartTimes w) (clock w) x (jobs w)
    (timeouts w) (accepted w) (dequeued w) (started w) (settled w).

Definition set_jobs (x : gmap nat Phase) (w : World) : World :=
  mkWorld (concurrencyLimit w) (rateLimit w) (timeoutLimit w) (activeJobs w)
    (queue w) (isDisposed w) (jobStartTimes w) (clock w) (nextId w) x
    (timeouts w) (accepted w) (dequeued w) (started w) (settled w).

Definition set_timeouts (x : gmap nat Z) (w : World) : World :=
  mkWorld (concurrencyLimit w) (rateLimit w) (timeoutLimit w) (activeJobs w)
    (queue w) (isDisposed w) (jobStartTimes w) (clock w) (nextId w) (jobs w)
    x (accepted w) (dequeued w) (started w) (settled w).

Definition log_accepted (id : nat) (t : Z) (w : World) : World :=
  mkWorld (concurrencyLimit w) (rateLimit w) (timeoutLimit w) (activeJobs w)
    (queue w) (isDisposed w) (jobStartTimes w) (clock w) (nextId w) (jobs w)
    (timeouts w) (accepted w ++ [(id, t)]) (dequeued w) (started w) (settled w).

Definition log_dequeued (id : nat) (t : Z) (w : World) : World :=
  mkWorld (concurrencyLimit w) (rateLimit w) (timeoutLimit w) (activeJobs w)
    (queue w) (isDisposed w) (jobStartTimes w) (clock w) (nextId w) (jobs w)
    (timeouts w) (accepted w) (dequeued w ++ [(id, t)]) (started w) (settled w).

Definition log_started (id : nat) (t : Z) (w : World) : World :=
  mkWorld (concurrencyLimit w) (rateLimit w) (timeoutLimit w) (activeJobs w)
    (queue w) (isDisposed w) (jobStartTimes w) (clock w) (nextId w) (jobs w)
    (timeouts w) (accepted w) (dequeued w) (started w ++ [(id, t)]) (settled w).

Definition log_settled (id : nat) (s : Settlement) (w : World) : World :=
  mkWorld (concurrencyLimit w) (rateLimit w) (timeoutLimit w) (activeJobs w)
    (queue w) (isDisposed w) (jobStartTimes w) (clock w) (nextId w) (jobs w)
    (timeouts w) (accepted w) (dequeued w) (started w) (settled w ++ [(id, s)]).

(** ** The methods of [JobQueue] *)

Definition disposedMsg : string := "Queue has been disposed"%string.
Definition timeoutMsg : string := "Job timed out"%string.

(** [constructor(options)]: the three checks throw; [??] supplies the
    defaults.  [t0] is the time at which the object is created. *)
Definition constructor (t0 : Z) (options : JobQueueOptions) : string + World :=
  if match opt_concurrencyLimit options with Some c => c <=? 0 | None => false end
  then inl "concurrencyLimit must be greater than 0"%string
  else if match opt_rateLimit options with Some r => r <=? 0 | None => false end
  then inl "rateLimit must be greater than 0"%string
  else if match opt_timeoutLimit options with Some t => t <=? 0 | None => false end
  then inl "timeoutLimit must be greater than 0"%string
  else inr {|
    concurrencyLimit := default 1000 (opt_concurrencyLimit options);
    rateLimit := opt_rateLimit options;
    timeoutLimit := default 1200 (opt_timeoutLimit options) * 1000;
    activeJobs := 0; queue := []; isDisposed := false; jobStartTimes := [];
    clock := t0; nextId := 0%nat; jobs := ∅; timeouts := ∅;
    accepted := []; dequeued := []; started := []; settled := [] |}.

(** [jobStartTimes.push(now)] followed by the return of
    [enforceRateLimit]: the [job] closure [id] now awaits the returned
    promise. *)
Definition pushStart (id : nat) (qst now : Z) (w : World) : World :=
  set_jobs (<[id := Cleared qst]> (jobs w))
    (set_jobStartTimes (jobStartTimes w ++ [now]) w).

(** [enforceRateLimit()], called from the closure [job] of entry [id], up
    to its first suspension. *)
Definition enforceRateLimit (id : nat) (qst : Z) (w : World) : World :=
  match rateLimit w with
  | None => set_jobs (<[id := Cleared qst]> (jobs w)) w
  | Some R =>
      let now := clock w in
      let w := set_jobStartTimes
                 (List.filter (fun time => now - time <? 60000)
                    (jobStartTimes w)) w in
      if R <=? Z.of_nat (length (jobStartTimes w)) then
        match jobStartTimes w with
        | oldestStart :: _ =>
            let waitTime := 60000 - (now - oldestStart) in
            if 0 <? waitTime
            then set_jobs (<[id := RateWaiting qst now (now + waitTime)]> (jobs w)) w
            else pushStart id qst now w
        | [] =>
            (* [jobStartTimes[0]] is [undefined], [waitTime] is [NaN] and
               [NaN > 0] is false *)
            pushStart id qst now w
        end
      else pushStart id qst now w
  end.

(** [processNextJob()]. *)
Definition processNextJob (w : World) : World :=
  if (Z.of_nat (length (queue w)) =? 0) || (concurrencyLimit w <=? activeJobs w)
  then w
  else
    match queue w with
    | next :: rest =>
        let w := log_dequeued (eid next) (clock w) (set_queue rest w) in
        let w := set_activeJobs (activeJobs w + 1) w in
        (* [next.job()]: runs until its first [await] *)
        enforceRateLimit (eid next) (queueStartTime next) w
    | [] => w
    end.

(** [schedule(fn, ...args)].  The call is named [nextId]. *)
Definition schedule (w : World) : World :=
  let id := nextId w in
  let w := set_nextId (S id) w in
  if isDisposed w then log_settled id (Rejected disposedMsg) w
  else
    let queueStartTime := clock w in
    let w := log_accepted id queueStartTime
               (set_queue (queue w ++ [mkEntry id queueStartTime]) w) in
    processNextJob w.

(** The loop of [dispose()]: [shift] and [reject] until the queue is
    empty. *)
Fixpoint drain (q : list Entry) (w : World) : World :=
  match q with
  | [] => w
  | job :: rest =>
      drain rest
        (log_settled (eid job) (Rejected disposedMsg)
           (log_dequeued (eid job) (clock w) (set_queue rest w)))
  end.

(** [dispose()]. *)
Definition dispose (w : World) : World :=
  drain (queue w) (set_isDisposed true w).

(** [size()] and [active()]. *)
Definition size_ (w : World) : Z := Z.of_nat (length (queue w)).
Definition active (w : World) : Z := activeJobs w.

(** ** Continuations: the code after each [await] *)

(** [enforceRateLimit] after [await new Promise(resolve =>
    setTimeout(resolve, waitTime))]: the timer of job [id] fired.  What
    is pushed is the local constant [now]. *)
Definition rateTimerFires (id : nat) (w : World) : World :=
  match jobs w !! id with
  | Some (RateWaiting qst now due) =>
      if due <=? clock w then pushStart id qst now w else w
  | _ => w
  end.

(** [executeWithTimeout(fn, args)]: [fn(...args)] is called and the
    timeout timer is created; the two promises are raced. *)
Definition executeWithTimeout (id : nat) (w : World) : World :=
  set_timeouts (<[id := clock w + timeoutLimit w]> (timeouts w))
    (log_started id (clock w) w).

(** [job] after [await this.enforceRateLimit()]: [executeJob] up to
    [await this.executeWithTimeout(fn, args)]. *)
Definition executeJob (id : nat) (w : World) : World :=
  match jobs w !! id with
  | Some (Cleared queueStartTime) =>
      let startTime := clock w in
      let queueTime := startTime - queueStartTime in
      set_jobs (<[id := Racing queueTime startTime]> (jobs w))
        (executeWithTimeout id w)
  | _ => w
  end.

(** The promise of [fn(...args)] settles with [o]; [Promise.race] takes
    it when nothing settled before. *)
Definition taskSettles (id : nat) (o : Outcome) (w : World) : World :=
  match jobs w !! id with
  | Some (Racing qt startTime) =>
      set_jobs (<[id := Raced qt startTime o]> (jobs w)) w
  | _ => w
  end.

(** The timeout timer of job [id] fires: [timeoutReject(new Error('Job
    timed out'))].  The timer leaves the timer table; [Promise.race]
    takes the rejection when nothing settled before. *)
Definition timeoutFires (id : nat) (w : World) : World :=
  match timeouts w !! id with
  | Some due =>
      if due <=? clock w then
        let w := set_timeouts (delete id (timeouts w)) w in
        match jobs w !! id with
        | Some (Racing qt startTime) =>
            set_jobs (<[id := Raced qt startTime (Threw timeoutMsg)]> (jobs w)) w
        | _ => w
        end
      else w
  | None => w
  end.

(** What [executeJob] hands to the caller for a settled race. *)
Definition deliver (o : Outcome) (queueTime executionTime : Z) : Settlement :=
  match o with
  | Returned v => Resolved (mkJobResult v queueTime executionTime)
  | Threw msg => Rejected msg
  end.

(** [executeJob] after [await this.executeWithTimeout(fn, args)]: the
    [try] or the [catch] branch, then [finally]. *)
Definition executeJobSettled (id : nat) (w : World) : World :=
  match jobs w !! id with
  | Some (Raced queueTime startTime o) =>
      let executionTime := clock w - startTime in
      let w := log_settled id (deliver o queueTime executionTime) w in
      let w := set_jobs (delete id (jobs w)) w in
      let w := set_activeJobs (activeJobs w - 1) w in
      processNextJob w
  | _ => w
  end.

(** ** The event loop *)

Inductive Event :=
| Schedule                          (* a caller runs [queue.schedule(fn, ...)] *)
| Dispose                           (* a caller runs [queue.dispose()] *)
| Tick (d : N)                      (* [d] milliseconds pass *)
| RateTimerFires (id : nat)         (* timer of [enforceRateLimit] *)
| Resume (id : nat)                 (* [job] resumes after [enforceRateLimit] *)
| TaskSettles (id : nat) (o : Outcome)
| TimeoutFires (id : nat)           (* timer of [executeWithTimeout] *)
| Continue (id : nat).              (* [executeJob] resumes after the race *)

#[global] Instance Outcome_eq_dec : EqDecision Outcome.
Proof. solve_decision. Defined.

#[global] Instance Event_eq_dec : EqDecision Event.
Proof. solve_decision. Defined.

Definition step (w : World) (e : Event) : World :=
  match e with
  | Schedule => schedule w
  | Dispose => dispose w
  | Tick d => set_clock (clock w + Z.of_N d) w
  | RateTimerFires id => rateTimerFires id w
  | Resume id => executeJob id w
  | TaskSettles id o => taskSettles id o w
  | TimeoutFires id => timeoutFires id w
  | Continue id => executeJobSettled id w
  end.

Definition run (w : World) (es : list Event) : World := fold_left step es w.

(** Job starts in the trailing window of 60000 ms that ends at [t]; the
    window is the one [enforceRateLimit] keeps: [t - time < 60000]. *)
Definition startsInWindow (t : Z) (w : World) : nat :=
  length (List.filter (fun s => (t - snd s <? 60000) && (snd s <=? t)) (started w)).

(** Jobs whose body is executing: [fn(...args)] was called and the race
    is still open. *)
Definition isRacing (p : Phase) : bool :=
  match p with Racing _ _ => true | _ => false end.

Definition executing (w : World) : Z :=
  Z.of_nat (length (List.filter (fun kv => isRacing (snd kv)) (map_to_list (jobs w)))).

(** ** Invariants, relations between worlds, and the executions used
    below *)

Definition fifo (w : World) : Prop :=
  (fst <$> dequeued w) ++ (eid <$> queue w) = fst <$> accepted w.

Record ids_ok (w : World) : Prop := {
  ids_fifo : fifo w;
  ids_accepted_lt : ∀ id, id ∈ (accepted w).*1 → (id < nextId w)%nat;
  ids_accepted_nodup : NoDup (accepted w).*1;
  ids_jobs_dequeued : ∀ id, is_Some (jobs w !! id) → id ∈ (dequeued w).*1;
  ids_settled_lt : ∀ id, id ∈ (settled w).*1 → (id < nextId w)%nat;
  ids_settled_nodup : NoDup (settled w).*1;
  ids_settled_not_queued : ∀ id, id ∈ (settled w).*1 → id ∉ eid <$> queue w;
  ids_settled_not_running : ∀ id, id ∈ (settled w).*1 → jobs w !! id = None;
}.

Record count_ok (w : World) : Prop := {
  cnt_active : activeJobs w = Z.of_nat (size (jobs w));
  cnt_le : activeJobs w <= concurrencyLimit w;
  cnt_full : queue w ≠ [] → concurrencyLimit w <= activeJobs w;
}.

(** [acc], [deq], [sta] are the traces of pushes, shifts and task
    starts; [clk] is the clock. *)
Definition phase_ok (acc deq sta : list (nat * Z)) (clk : Z)
    (id : nat) (ph : Phase) : Prop :=
  match ph with
  | Cleared qst | RateWaiting qst _ _ =>
      ∃ dq, (id, qst) ∈ acc ∧ (id, dq) ∈ deq ∧ qst <= dq ∧ dq <= clk
  | Racing qt st | Raced qt st _ =>
      ∃ qst dq, (id, qst) ∈ acc ∧ (id, dq) ∈ deq ∧ (id, st) ∈ sta ∧
                qt = st - qst ∧ qst <= dq ∧ dq <= st ∧ st <= clk
  end.

Definition result_ok (acc deq sta : list (nat * Z)) (id : nat) (r : JobResult) : Prop :=
  ∃ qst dq st, (id, qst) ∈ acc ∧ (id, dq) ∈ deq ∧ (id, st) ∈ sta ∧
               queueTime r = st - qst ∧ qst <= dq ∧ dq <= st ∧
               0 <= executionTime r.

Record time_ok (w : World) : Prop := {
  t_queue : ∀ e, e ∈ queue w →
    (eid e, queueStartTime e) ∈ accepted w ∧ queueStartTime e <= clock w;
  t_jobs : ∀ id ph, jobs w !! id = Some ph →
    phase_ok (accepted w) (dequeued w) (started w) (clock w) id ph;
  t_timer : ∀ id qt st, jobs w !! id = Some (Racing qt st) →
    timeouts w !! id = Some (st + timeoutLimit w);
  t_settled : ∀ id r, (id, Resolved r) ∈ settled w →
    result_ok (accepted w) (dequeued w) (started w) id r;
}.

Record inv (w : World) : Prop := {
  inv_ids : ids_ok w;
  inv_count : count_ok w;
  inv_time : time_ok w;
}.


Definition rate1 : JobQueueOptions := mkOptions None (Some 1) None.


Definition w_rate1 : World :=
  mkWorld 1000 (Some 1) 1200000 0 [] false [] 0 0%nat ∅ ∅ [] [] [] [].

(** Three [schedule] calls in a row; the first job runs, the timers of
    the two others fire a minute later. *)
Definition back_to_back : list Event :=
  [Schedule; Schedule; Schedule; Resume 0%nat; Tick 60000;
   RateTimerFires 1%nat; Resume 1%nat; RateTimerFires 2%nat; Resume 2%nat].

(** Every shifted entry is either a suspended call or settled. *)
Definition deq_ok (w : World) : Prop :=
  ∀ id, id ∈ (dequeued w).*1 → is_Some (jobs w !! id) ∨ id ∈ (settled w).*1.

(** Two [schedule] calls in a row; the first job has begun. *)
Definition two_jobs : list Event := [Schedule; Schedule; Resume 0%nat].

(** [new JobQueue({ concurrencyLimit: 1 })] at time 0. *)
Definition one_slot : JobQueueOptions := mkOptions (Some 1) None None.

Definition w_one_slot : World :=
  mkWorld 1 None 1200000 0 [] false [] 0 0%nat ∅ ∅ [] [] [] [].

(** With [rateLimit = 1]: job 0 is submitted and started at time 0; job 1
    is submitted at time 10, shifted at once and made to wait until
    60000; it runs for 5 ms and returns. *)
Definition delayed_job : list Event :=
  [Schedule; Resume 0%nat; Tick 10; Schedule; Tick 59990;
   RateTimerFires 1%nat; Resume 1%nat; Tick 5;
   TaskSettles 1%nat (Returned "done"); Continue 1%nat].

(** Job 1 starts at 60000 after its rate-limit wait; job 2 is submitted
    one millisecond later. *)
Definition after_the_wait : list Event :=
  [Schedule; Resume 0%nat; Schedule; Tick 60000; RateTimerFires 1%nat;
   Resume 1%nat; Tick 1; Schedule; Resume 2%nat].

(** Job 1 is submitted at time 10 and its rate-limit timer is due at
    time 60000, which the clock has reached. *)
Definition woken : list Event :=
  [Schedule; Resume 0%nat; Tick 10; Schedule; Tick 59990].

(** [fn(...args)] has been called for job [id]. *)
Definition begun (w : World) (id : nat) : Prop :=
  match jobs w !! id with
  | Some (Racing _ _) | Some (Raced _ _ _) => True
  | Some _ => False
  | None => id ∈ (settled w).*1
  end.





(** The event resumes or settles the suspended call [id]. *)
Definition concerns (e : Event) (id : nat) : Prop :=
  match e with
  | RateTimerFires i | Resume i | TaskSettles i _ | TimeoutFires i
  | Continue i => i = id
  | Schedule | Dispose | Tick _ => False
  end.



#[global] Instance concerns_dec (e : Event) (id : nat) : Decision (concerns e id).
Proof. destruct e; simpl; apply _. Defined.

(** After [dispose()]: the flag is set and the queue is empty, for
    ever. *)
Definition closed (w : World) : Prop := isDisposed w = true ∧ queue w = [].

(** One job is running and two are pending when [dispose()] is called. *)
Definition one_running_two_pending : list Event :=
  [Schedule; Schedule; Schedule; Resume 0%nat; Tick 50].

(** ** Further invariants *)

(** Every [schedule] call is in one place: pending, suspended, or
    settled. *)
Definition accounted (w : World) : Prop :=
  nextId w = (length (queue w) + size (jobs w) + length (settled w))%nat.

(** Without a rate limit the limiter keeps no timestamps and suspends
    nobody on a timer. *)
Definition unlimited_ok (w : World) : Prop :=
  jobStartTimes w = []
  ∧ ∀ id qst now due, jobs w !! id ≠ Some (RateWaiting qst now due).

(** The timestamps of the window are in the past, and a rate-limit timer
    is due after the check that created it, at most a minute later. *)
Record rate_ok (w : World) : Prop := {
  r_window : ∀ t, t ∈ jobStartTimes w → t <= clock w;
  r_waiting : ∀ id qst now due,
    jobs w !! id = Some (RateWaiting qst now due) →
    now <= clock w ∧ now < due ∧ due <= now + 60000;
}.

(** The two reported times add up to no more than the time elapsed
    since the submission. *)
Definition elapsed_ok (w : World) : Prop :=
  ∀ id r, (id, Resolved r) ∈ settled w →
    ∃ submitted, (id, submitted) ∈ accepted w
      ∧ 0 <= queueTime r ∧ 0 <= executionTime r
      ∧ queueTime r + executionTime r <= clock w - submitted.

(** A task is started once, for a shifted entry. *)
Record started_ok (w : World) : Prop := {
  s_nodup : NoDup (started w).*1;
  s_begun : ∀ id, id ∈ (started w).*1 → begun w id;
  s_dequeued : ∀ id, id ∈ (started w).*1 → id ∈ (dequeued w).*1;
}.


(** Where a settled race and a delivered settlement come from, given
    the events so far. *)
Definition settlement_from (es : list Event) (id : nat) (s : Settlement) : Prop :=
  match s with
  | Resolved r => TaskSettles id (Returned (result r)) ∈ es
  | Rejected msg =>
      msg = disposedMsg ∨ msg = timeoutMsg ∨ TaskSettles id (Threw msg) ∈ es
  end.

Definition provenance (es : list Event) (w : World) : Prop :=
  (∀ id qt st o, jobs w !! id = Some (Raced qt st o) →
     o = Threw timeoutMsg ∨ TaskSettles id o ∈ es)
  ∧ (∀ id s, (id, s) ∈ settled w → settlement_from es id s).


(* ------------------------------------------------------------------ *)
(** * Properties *)

(** ** The shape of the results of the methods *)

Lemma enforceRateLimit_cases (id : nat) (qst : Z) (w : World) :
  ∃ ph jst,
    (ph = Cleared qst ∨ ∃ due, ph = RateWaiting qst (clock w) due) ∧
    enforceRateLimit id qst w =
      set_jobs (<[id := ph]> (jobs w)) (set_jobStartTimes jst w).
Proof.
  unfold enforceRateLimit, pushStart.
  destruct (rateLimit w) as [R|] eqn:HR.
  - cbn zeta. simpl. repeat case_match; eexists _, _; (split; [|reflexivity]); eauto.
  - exists (Cleared qst), (jobStartTimes w). split; [by left|]. by destruct w.
Qed.

Lemma processNextJob_cases (w : World) :
  (processNextJob w = w ∧ (queue w = [] ∨ concurrencyLimit w <= activeJobs w))
  ∨ ∃ next rest ph jst,
      queue w = next :: rest ∧ activeJobs w < concurrencyLimit w ∧
      (ph = Cleared (queueStartTime next)
       ∨ ∃ due, ph = RateWaiting (queueStartTime next) (clock w) due) ∧
      processNextJob w =
        mkWorld (concurrencyLimit w) (rateLimit w) (timeoutLimit w)
          (activeJobs w + 1) rest (isDisposed w) jst (clock w) (nextId w)
          (<[eid next := ph]> (jobs w)) (timeouts w) (accepted w)
          (dequeued w ++ [(eid next, clock w)]) (started w) (settled w).
Proof.
  unfold processNextJob.
  destruct (queue w) as [|next rest] eqn:Hq; simpl.
  { left. split; [done | by left]. }
  destruct (Z.leb_spec (concurrencyLimit w) (activeJobs w)) as [Hc|Hc].
  { left. split; [done | by right]. }
  right. exists next, rest.
  match goal with |- context [enforceRateLimit ?i ?q ?x] =>
    destruct (enforceRateLimit_cases i q x) as (ph & jst & Hph & ->) end.
  exists ph, jst. by repeat split.
Qed.

Lemma drain_eq (q : list Entry) (w : World) :
  drain q w =
    mkWorld (concurrencyLimit w) (rateLimit w) (timeoutLimit w) (activeJobs w)
      (match q with [] => queue w | _ => [] end)
      (isDisposed w) (jobStartTimes w) (clock w) (nextId w) (jobs w)
      (timeouts w) (accepted w)
      (dequeued w ++ ((λ e, (eid e, clock w)) <$> q)) (started w)
      (settled w ++ ((λ e, (eid e, Rejected disposedMsg)) <$> q)).
Proof.
  revert w. induction q as [|job rest IH]; intros w.
  - simpl. rewrite !app_nil_r. by destruct w.
  - simpl. rewrite IH. simpl. rewrite <- !app_assoc. simpl.
    by destruct rest.
Qed.

Lemma dispose_eq (w : World) :
  dispose w =
    mkWorld (concurrencyLimit w) (rateLimit w) (timeoutLimit w) (activeJobs w)
      [] true (jobStartTimes w) (clock w) (nextId w) (jobs w)
      (timeouts w) (accepted w)
      (dequeued w ++ ((λ e, (eid e, clock w)) <$> queue w)) (started w)
      (settled w ++ ((λ e, (eid e, Rejected disposedMsg)) <$> queue w)).
Proof.
  unfold dispose. rewrite drain_eq. simpl. by destruct (queue w).
Qed.

Lemma run_app (w : World) (es1 es2 : list Event) :
  run w (es1 ++ es2) = run (run w es1) es2.
Proof. apply fold_left_app. Qed.

Lemma run_snoc (w : World) (es : list Event) (e : Event) :
  run w (es ++ [e]) = step (run w es) e.
Proof. by rewrite run_app. Qed.

(** Induction along an execution. *)
Lemma run_invariant (P : World → Prop) :
  (∀ w e, P w → P (step w e)) →
  ∀ es w, P w → P (run w es).
Proof.
  intros Hstep es. induction es as [|e es IH]; intros w Hw; [done|].
  simpl. apply IH, Hstep, Hw.
Qed.

Lemma constructor_inr (t0 : Z) (options : JobQueueOptions) (w0 : World) :
  constructor t0 options = inr w0 →
  0 < concurrencyLimit w0 ∧ activeJobs w0 = 0 ∧ queue w0 = [] ∧
  isDisposed w0 = false ∧ jobStartTimes w0 = [] ∧ clock w0 = t0 ∧
  nextId w0 = 0%nat ∧ jobs w0 = ∅ ∧ timeouts w0 = ∅ ∧ accepted w0 = [] ∧
  dequeued w0 = [] ∧ started w0 = [] ∧ settled w0 = [] ∧
  rateLimit w0 = opt_rateLimit options.
Proof.
  unfold constructor. intros H.
  repeat case_match; try discriminate; inversion H; subst; simpl;
    repeat split; try done; simpl; lia.
Qed.

(** The tactic that opens a call of [processNextJob]. *)
Ltac open_processNextJob :=
  match goal with
  | |- context [processNextJob ?x] =>
      let next := fresh "next" in
      let rest := fresh "rest" in
      let ph := fresh "ph" in
      let jst := fresh "jst" in
      let Hq := fresh "Hq" in
      let Hlt := fresh "Hlt" in
      let Hph := fresh "Hph" in
      let Hfull := fresh "Hfull" in
      destruct (processNextJob_cases x)
        as [[-> Hfull] | (next & rest & ph & jst & Hq & Hlt & Hph & ->)];
      simpl in *
  end.

(** ** First in, first out *)

Lemma fifo_step (w : World) (e : Event) : fifo w → fifo (step w e).
Proof.
  unfold fifo. intros H. destruct e as [| |d|id|id|id o|id|id]; simpl.
  - unfold schedule. simpl. destruct (isDisposed w); simpl; [done|].
    open_processNextJob.
    + rewrite !fmap_app, app_assoc, H. done.
    + apply (f_equal (fmap eid)) in Hq. rewrite fmap_app in Hq. simpl in Hq.
      rewrite !fmap_app. simpl. rewrite <- H, <- !app_assoc. by f_equal.
  - rewrite dispose_eq. simpl. rewrite app_nil_r, fmap_app, <- H.
    f_equal. rewrite <- list_fmap_compose. done.
  - done.
  - unfold rateTimerFires. repeat case_match; done.
  - unfold executeJob. repeat case_match; done.
  - unfold taskSettles. repeat case_match; done.
  - unfold timeoutFires. repeat case_match; done.
  - unfold executeJobSettled. repeat case_match; try done.
    open_processNextJob; [done|].
    rewrite fmap_app, <- H, Hq. simpl. by rewrite <- app_assoc.
Qed.

(** ** Names: every promise is in one place *)

Lemma ids_queue_nodup (w : World) : ids_ok w → NoDup (eid <$> queue w).
Proof.
  intros [Hf _ Hn _ _ _ _ _]. unfold fifo in Hf. rewrite <- Hf in Hn.
  by apply NoDup_app in Hn as (_ & _ & ?).
Qed.

Lemma ids_dequeued_not_queued (w : World) (id : nat) :
  ids_ok w → id ∈ (dequeued w).*1 → id ∉ eid <$> queue w.
Proof.
  intros [Hf _ Hn _ _ _ _ _]. unfold fifo in Hf. rewrite <- Hf in Hn.
  apply NoDup_app in Hn as (_ & Hd & _). apply Hd.
Qed.

Lemma ids_queue_lt (w : World) (id : nat) :
  ids_ok w → id ∈ eid <$> queue w → (id < nextId w)%nat.
Proof.
  intros H Hin. apply (ids_accepted_lt w H). rewrite <- (ids_fifo w H).
  apply elem_of_app. by right.
Qed.


Lemma ids_queue_not_running (w : World) (id : nat) :
  ids_ok w → id ∈ eid <$> queue w → jobs w !! id = None.
Proof.
  intros H Hin. destruct (jobs w !! id) eqn:Hj; [|done].
  exfalso. eapply ids_dequeued_not_queued; [done| |done].
  apply (ids_jobs_dequeued w H). by rewrite Hj.
Qed.

(** A dispatch attempt keeps the names in order, whatever the counter
    says. *)
Lemma ids_ok_processNextJob (w : World) : ids_ok w → ids_ok (processNextJob w).
Proof.
  intros H.
  assert (Hstep : fifo (processNextJob w)).
  { pose proof (ids_fifo w H) as Hf. unfold fifo in *.
    open_processNextJob; [done|].
    rewrite fmap_app, <- Hf, Hq. simpl. by rewrite <- app_assoc. }
  pose proof (ids_queue_nodup w H) as Hqn.
  revert Hstep. open_processNextJob; [done|]. intros Hstep.
  rewrite Hq in Hqn. simpl in Hqn. apply NoDup_cons in Hqn as [Hnr Hrn].
  assert (Hnext : eid next ∈ eid <$> queue w) by (rewrite Hq; simpl; left).
  destruct H as [Hf Hal Han Hjd Hsl Hsn Hsq Hsr].
  split; simpl; try done.
  - intros id His. rewrite fmap_app. apply elem_of_app. simpl.
    destruct (decide (id = eid next)) as [->|Hne].
    + right. left.
    + left. apply Hjd. by rewrite lookup_insert_ne in His.
  - intros id Hin Hq'. apply (Hsq id Hin). rewrite Hq. simpl. by right.
  - intros id Hin. rewrite lookup_insert_ne; [by apply Hsr|].
    intros <-. by apply (Hsq _ Hin).
Qed.

(** The world of [schedule] between [queue.push] and the dispatch
    attempt. *)
Lemma ids_ok_pushed (w : World) :
  ids_ok w →
  ids_ok (log_accepted (nextId w) (clock w)
            (set_queue (queue w ++ [mkEntry (nextId w) (clock w)])
               (set_nextId (S (nextId w)) w))).
Proof.
  intros [Hf Hal Han Hjd Hsl Hsn Hsq Hsr]. split; simpl; try done.
  - unfold fifo in *. simpl. rewrite !fmap_app, app_assoc, Hf. done.
  - intros id. rewrite fmap_app, elem_of_app. simpl.
    rewrite list_elem_of_singleton. intros [Hin | ->]; [|lia].
    specialize (Hal id Hin). lia.
  - rewrite fmap_app. simpl. apply NoDup_app. split; [done|].
    split; [|apply NoDup_singleton].
    intros id Hin ->%list_elem_of_singleton. specialize (Hal _ Hin). lia.
  - intros id Hin. specialize (Hsl id Hin). lia.
  - intros id Hin. rewrite fmap_app, elem_of_app. simpl.
    rewrite list_elem_of_singleton. intros [Hq | ->]; [by apply (Hsq id)|].
    specialize (Hsl _ Hin). lia.
Qed.

(** The world of [executeJob] after [resolve] or [reject] and the
    decrement, before the dispatch attempt. *)
Lemma ids_ok_delivered (w : World) (id : nat) (ph : Phase) (s : Settlement) :
  ids_ok w → jobs w !! id = Some ph →
  ids_ok (set_activeJobs (activeJobs w - 1)
            (set_jobs (delete id (jobs w)) (log_settled id s w))).
Proof.
  intros Hids Hj.
  pose proof (ids_dequeued_not_queued w id Hids) as Hdq.
  destruct Hids as [Hf Hal Han Hjd Hsl Hsn Hsq Hsr].
  assert (Hid : id ∈ (dequeued w).*1) by (apply Hjd; by rewrite Hj).
  split; simpl; try done.
  - intros id' His. apply Hjd. destruct (decide (id = id')) as [->|Hne].
    + by rewrite Hj.
    + by rewrite lookup_delete_ne in His.
  - intros id'. rewrite fmap_app, elem_of_app. simpl.
    rewrite list_elem_of_singleton. intros [Hin | ->]; [by apply Hsl|].
    apply Hal. rewrite <- Hf. apply elem_of_app. by left.
  - rewrite fmap_app. simpl. apply NoDup_app. split; [done|].
    split; [|apply NoDup_singleton].
    intros id' Hin ->%list_elem_of_singleton. specialize (Hsr _ Hin).
    congruence.
  - intros id'. rewrite fmap_app, elem_of_app. simpl.
    rewrite list_elem_of_singleton. intros [Hin | ->]; [by apply Hsq|].
    by apply Hdq.
  - intros id'. rewrite fmap_app, elem_of_app. simpl.
    rewrite list_elem_of_singleton. intros [Hin | ->].
    + destruct (decide (id = id')) as [->|Hne];
        [apply lookup_delete_eq | rewrite lookup_delete_ne; auto].
    + apply lookup_delete_eq.
Qed.

Lemma ids_ok_step (w : World) (e : Event) : ids_ok w → ids_ok (step w e).
Proof.
  intros H. destruct e as [| |d|id|id|id o|id|id]; simpl.
  - (* schedule *)
    unfold schedule. simpl. destruct (isDisposed w) eqn:Hd; simpl.
    + destruct H as [Hf Hal Han Hjd Hsl Hsn Hsq Hsr].
      split; simpl; try done.
      * intros id Hin. specialize (Hal id Hin). lia.
      * intros id. rewrite fmap_app, elem_of_app. simpl.
        rewrite list_elem_of_singleton. intros [Hin | ->]; [|lia].
        specialize (Hsl id Hin). lia.
      * rewrite fmap_app. simpl. apply NoDup_app. split; [done|].
        split; [|apply NoDup_singleton].
        intros id Hin ->%list_elem_of_singleton. specialize (Hsl _ Hin). lia.
      * intros id. rewrite fmap_app, elem_of_app. simpl.
        rewrite list_elem_of_singleton. intros [Hin | ->]; [by apply Hsq|].
        intros Hin. assert (nextId w < nextId w)%nat; [|lia].
        apply Hal. rewrite <- Hf. apply elem_of_app. by right.
      * intros id. rewrite fmap_app, elem_of_app. simpl.
        rewrite list_elem_of_singleton. intros [Hin | ->]; [by apply Hsr|].
        destruct (jobs w !! nextId w) eqn:Hj; [|done].
        assert (nextId w < nextId w)%nat; [|lia].
        apply Hal. rewrite <- Hf. apply elem_of_app. left. apply Hjd.
        by rewrite Hj.
    + by apply ids_ok_processNextJob, ids_ok_pushed.
  - (* dispose *)
    pose proof (ids_queue_nodup w H) as Hqn.
    pose proof (λ id, ids_queue_not_running w id H) as Hqr.
    pose proof (λ id, ids_queue_lt w id H) as Hql.
    pose proof (fifo_step w Dispose (ids_fifo w H)) as Hf'.
    destruct H as [Hf Hal Han Hjd Hsl Hsn Hsq Hsr].
    simpl in Hf'. revert Hf'. rewrite dispose_eq. intros Hf'.
    assert (Hfst : ((λ e, (eid e, Rejected disposedMsg)) <$> queue w).*1
                   = eid <$> queue w).
    { rewrite <- list_fmap_compose. done. }
    split; simpl; try done.
    + intros id His. rewrite fmap_app. apply elem_of_app. left. by apply Hjd.
    + intros id. rewrite fmap_app, elem_of_app, Hfst.
      intros [Hin | Hin]; [by apply Hsl | by apply Hql].
    + rewrite fmap_app, Hfst. apply NoDup_app. split; [done|]. split; [|done].
      intros id Hin. by apply Hsq.
    + intros id _. apply not_elem_of_nil.
    + intros id. rewrite fmap_app, elem_of_app, Hfst.
      intros [Hin | Hin]; [by apply Hsr | by apply Hqr].
  - (* tick *) by destruct H.
  - (* the rate timer *)
    unfold rateTimerFires, pushStart.
    destruct (jobs w !! id) as [[| | |]|] eqn:Hj; try done.
    case_match; [|done].
    destruct H as [Hf Hal Han Hjd Hsl Hsn Hsq Hsr]. split; simpl; try done.
    + intros id' His. apply Hjd. destruct (decide (id = id')) as [->|Hne].
      * by rewrite Hj.
      * by rewrite lookup_insert_ne in His.
    + intros id' Hin. specialize (Hsr _ Hin).
      rewrite lookup_insert_ne; [done|]. intros <-. congruence.
  - (* job resumes *)
    unfold executeJob, executeWithTimeout.
    destruct (jobs w !! id) as [[| | |]|] eqn:Hj; try done.
    destruct H as [Hf Hal Han Hjd Hsl Hsn Hsq Hsr]. split; simpl; try done.
    + intros id' His. apply Hjd. destruct (decide (id = id')) as [->|Hne].
      * by rewrite Hj.
      * by rewrite lookup_insert_ne in His.
    + intros id' Hin. specialize (Hsr _ Hin).
      rewrite lookup_insert_ne; [done|]. intros <-. congruence.
  - (* the task settles *)
    unfold taskSettles.
    destruct (jobs w !! id) as [[| | |]|] eqn:Hj; try done.
    destruct H as [Hf Hal Han Hjd Hsl Hsn Hsq Hsr]. split; simpl; try done.
    + intros id' His. apply Hjd. destruct (decide (id = id')) as [->|Hne].
      * by rewrite Hj.
      * by rewrite lookup_insert_ne in His.
    + intros id' Hin. specialize (Hsr _ Hin).
      rewrite lookup_insert_ne; [done|]. intros <-. congruence.
  - (* the timeout timer *)
    unfold timeoutFires.
    destruct (timeouts w !! id) as [due|]; [|done].
    case_match; [|done]. simpl.
    destruct (jobs w !! id) as [[| | |]|] eqn:Hj;
      destruct H as [Hf Hal Han Hjd Hsl Hsn Hsq Hsr]; split; simpl; try done.
    + intros id' His. apply Hjd. destruct (decide (id = id')) as [->|Hne].
      * by rewrite Hj.
      * by rewrite lookup_insert_ne in His.
    + intros id' Hin. specialize (Hsr _ Hin).
      rewrite lookup_insert_ne; [done|]. intros <-. congruence.
  - (* the job is settled *)
    unfold executeJobSettled.
    destruct (jobs w !! id) as [[| | |qt st o]|] eqn:Hj; try done.
    apply ids_ok_processNextJob.
    exact (ids_ok_delivered w id _ (deliver o qt (clock w - st)) H Hj).
Qed.

(** ** The counter [activeJobs] *)

(** A dispatch attempt restores [count_ok] when at most the front entry
    is waiting for a slot that is free. *)
Lemma count_ok_processNextJob (w : World) :
  ids_ok w →
  activeJobs w = Z.of_nat (size (jobs w)) →
  activeJobs w <= concurrencyLimit w →
  (∀ next rest, queue w = next :: rest → rest ≠ [] →
     concurrencyLimit w <= activeJobs w + 1) →
  count_ok (processNextJob w).
Proof.
  intros Hids Ha Hle Hfull.
  pose proof (λ id, ids_queue_not_running w id Hids) as Hfresh.
  open_processNextJob.
  - split; [done..|]. by destruct Hfull0.
  - split; simpl.
    + rewrite map_size_insert_None; [lia|].
      apply Hfresh. rewrite Hq. simpl. left.
    + lia.
    + intros Hne. by apply (Hfull next rest).
Qed.

Lemma count_ok_step (w : World) (e : Event) :
  ids_ok w → count_ok w → count_ok (step w e).
Proof.
  intros Hids [Ha Hle Hfull]. destruct e as [| |d|id|id|id o|id|id]; simpl.
  - unfold schedule. simpl. destruct (isDisposed w) eqn:Hd; simpl; [done|].
    apply count_ok_processNextJob; simpl; try done.
    + by apply ids_ok_pushed.
    + intros next rest Hq Hrest.
      destruct (queue w) as [|e0 q0]; simpl in Hq.
      * inversion Hq; subst. done.
      * assert (concurrencyLimit w <= activeJobs w) by by apply Hfull. lia.
  - rewrite dispose_eq. split; simpl; done.
  - split; done.
  - unfold rateTimerFires, pushStart.
    destruct (jobs w !! id) as [[| | |]|] eqn:Hj; try done.
    case_match; [|done]. split; simpl; try done.
    rewrite map_size_insert_Some; [done|]. by rewrite Hj.
  - unfold executeJob, executeWithTimeout.
    destruct (jobs w !! id) as [[| | |]|] eqn:Hj; try done.
    split; simpl; try done.
    rewrite map_size_insert_Some; [done|]. by rewrite Hj.
  - unfold taskSettles.
    destruct (jobs w !! id) as [[| | |]|] eqn:Hj; try done.
    split; simpl; try done.
    rewrite map_size_insert_Some; [done|]. by rewrite Hj.
  - unfold timeoutFires.
    destruct (timeouts w !! id) as [due|]; [|done].
    case_match; [|done]. simpl.
    destruct (jobs w !! id) as [[| | |]|] eqn:Hj; split; simpl; try done.
    rewrite map_size_insert_Some; [done|]. by rewrite Hj.
  - unfold executeJobSettled.
    destruct (jobs w !! id) as [[| | |qt st o]|] eqn:Hj; try done.
    assert (Hpos : (0 < size (jobs w))%nat).
    { destruct (size (jobs w)) eqn:Hs; [|lia].
      apply map_size_empty_inv in Hs. rewrite Hs, lookup_empty in Hj. done. }
    apply count_ok_processNextJob; simpl.
    + exact (ids_ok_delivered w id _ (deliver o qt (clock w - st)) Hids Hj).
    + rewrite map_size_delete_Some; [lia|]. by rewrite Hj.
    + lia.
    + intros next rest Hq Hrest.
      assert (concurrencyLimit w <= activeJobs w); [|lia].
      apply Hfull. by rewrite Hq.
Qed.

(** ** Times: what the suspended calls and the results remember *)

Lemma phase_ok_mono (acc deq sta acc' deq' sta' : list (nat * Z))
    (clk clk' : Z) (id : nat) (ph : Phase) :
  (∀ x, x ∈ acc → x ∈ acc') → (∀ x, x ∈ deq → x ∈ deq') →
  (∀ x, x ∈ sta → x ∈ sta') → clk <= clk' →
  phase_ok acc deq sta clk id ph → phase_ok acc' deq' sta' clk' id ph.
Proof.
  intros Ha Hd Hs Hc. destruct ph; simpl.
  - intros (dq & ? & ? & ? & ?). exists dq. repeat split; auto; lia.
  - intros (dq & ? & ? & ? & ?). exists dq. repeat split; auto; lia.
  - intros (q & dq & ? & ? & ? & ? & ? & ? & ?).
    exists q, dq. repeat split; auto; lia.
  - intros (q & dq & ? & ? & ? & ? & ? & ? & ?).
    exists q, dq. repeat split; auto; lia.
Qed.

Lemma result_ok_mono (acc deq sta acc' deq' sta' : list (nat * Z))
    (id : nat) (r : JobResult) :
  (∀ x, x ∈ acc → x ∈ acc') → (∀ x, x ∈ deq → x ∈ deq') →
  (∀ x, x ∈ sta → x ∈ sta') →
  result_ok acc deq sta id r → result_ok acc' deq' sta' id r.
Proof.
  intros Ha Hd Hs (q & dq & st & ? & ? & ? & ? & ? & ? & ?).
  exists q, dq, st. repeat split; auto.
Qed.

Lemma elem_of_snoc_l {A} (l : list A) (x y : A) : x ∈ l → x ∈ l ++ [y].
Proof. intros. apply elem_of_app. by left. Qed.

Lemma elem_of_snoc_r {A} (l : list A) (y : A) : y ∈ l ++ [y].
Proof. apply elem_of_app. right. by apply list_elem_of_singleton. Qed.

Lemma time_ok_processNextJob (w : World) : time_ok w → time_ok (processNextJob w).
Proof.
  intros [Hq' Hj Ht Hs]. open_processNextJob; [done|].
  assert (Hnext : (eid next, queueStartTime next) ∈ accepted w
                  ∧ queueStartTime next <= clock w).
  { apply Hq'. rewrite Hq. left. }
  split; simpl.
  - intros e He. apply Hq'. rewrite Hq. by right.
  - intros id ph' Hl. destruct (decide (eid next = id)) as [<-|Hne].
    + rewrite lookup_insert_eq in Hl. inversion Hl; subst ph'.
      destruct Hnext as [Hacc Hle].
      destruct Hph as [-> | [due ->]]; simpl;
        exists (clock w); repeat split; auto using elem_of_snoc_r; lia.
    + rewrite lookup_insert_ne in Hl by done.
      eapply phase_ok_mono; [| | | |by apply Hj]; auto using elem_of_snoc_l.
      lia.
  - intros id qt st Hl. destruct (decide (eid next = id)) as [<-|Hne].
    + rewrite lookup_insert_eq in Hl. inversion Hl; subst ph.
      destruct Hph as [? | [due ?]]; done.
    + rewrite lookup_insert_ne in Hl by done. by apply (Ht id qt st).
  - intros id r Hin. eapply result_ok_mono; [| | |by apply Hs];
      auto using elem_of_snoc_l.
Qed.

Lemma time_ok_step (w : World) (e : Event) : time_ok w → time_ok (step w e).
Proof.
  intros H. destruct e as [| |d|id|id|id o|id|id]; simpl.
  - (* schedule *)
    unfold schedule. simpl. destruct (isDisposed w) eqn:Hd; simpl.
    + destruct H as [Hq Hj Ht Hs]. split; simpl; try done.
      intros id r [Hin | Hin%list_elem_of_singleton]%elem_of_app;
        [by apply Hs | done].
    + apply time_ok_processNextJob.
      destruct H as [Hq Hj Ht Hs]. split; simpl; try done.
      * intros e [He | ->%list_elem_of_singleton]%elem_of_app.
        -- destruct (Hq e He). split; [by apply elem_of_snoc_l | done].
        -- simpl. split; [apply elem_of_snoc_r | lia].
      * intros id ph Hl. eapply phase_ok_mono; [| | | |by apply Hj];
          auto using elem_of_snoc_l. lia.
      * intros id r Hin. eapply result_ok_mono; [| | |by apply Hs];
          auto using elem_of_snoc_l.
  - (* dispose *)
    rewrite dispose_eq. destruct H as [Hq Hj Ht Hs]. split; simpl; try done.
    + intros e He. by apply elem_of_nil in He.
    + intros id ph Hl. eapply phase_ok_mono; [| | | |by apply Hj]; auto.
      * intros x Hx. apply elem_of_app. by left.
      * lia.
    + intros id r [Hin | Hin]%elem_of_app.
      * eapply result_ok_mono; [| | |by apply Hs]; auto.
        intros x Hx. apply elem_of_app. by left.
      * apply list_elem_of_fmap in Hin as (e & Heq & _). done.
  - (* tick *)
    destruct H as [Hq Hj Ht Hs]. split; simpl; try done.
    + intros e He. destruct (Hq e He). split; [done | lia].
    + intros id ph Hl. eapply phase_ok_mono; [| | | |by apply Hj]; auto. lia.
  - (* the rate timer *)
    unfold rateTimerFires, pushStart.
    destruct (jobs w !! id) as [[|qst now due| |]|] eqn:Hl; try done.
    case_match; [|done].
    destruct H as [Hq Hj Ht Hs]. split; simpl; try done.
    + intros id' ph Hl'. destruct (decide (id = id')) as [<-|Hne].
      * rewrite lookup_insert_eq in Hl'. inversion Hl'; subst ph.
        apply (Hj id _ Hl).
      * rewrite lookup_insert_ne in Hl' by done. by apply Hj.
    + intros id' qt st Hl'. destruct (decide (id = id')) as [<-|Hne].
      * by rewrite lookup_insert_eq in Hl'.
      * rewrite lookup_insert_ne in Hl' by done. by apply (Ht id' qt st).
  - (* job resumes *)
    unfold executeJob, executeWithTimeout.
    destruct (jobs w !! id) as [[qst| | |]|] eqn:Hl; try done.
    destruct H as [Hq Hj Ht Hs]. split; simpl; try done.
    + intros id' ph Hl'. destruct (decide (id = id')) as [<-|Hne].
      * rewrite lookup_insert_eq in Hl'. inversion Hl'; subst ph.
        destruct (Hj id _ Hl) as (dq & ? & ? & ? & ?). simpl.
        exists qst, dq. repeat split; auto using elem_of_snoc_r; lia.
      * rewrite lookup_insert_ne in Hl' by done.
        eapply phase_ok_mono; [| | | |by apply Hj];
          auto using elem_of_snoc_l. lia.
    + intros id' qt st Hl'. destruct (decide (id = id')) as [<-|Hne].
      * rewrite lookup_insert_eq in Hl'. inversion Hl'; subst.
        by rewrite lookup_insert_eq.
      * rewrite lookup_insert_ne in Hl' by done.
        rewrite lookup_insert_ne by done. by apply (Ht id' qt st).
    + intros id' r Hin. eapply result_ok_mono; [| | |by apply Hs];
        auto using elem_of_snoc_l.
  - (* the task settles *)
    unfold taskSettles.
    destruct (jobs w !! id) as [[| | qt st|]|] eqn:Hl; try done.
    destruct H as [Hq Hj Ht Hs]. split; simpl; try done.
    + intros id' ph Hl'. destruct (decide (id = id')) as [<-|Hne].
      * rewrite lookup_insert_eq in Hl'. inversion Hl'; subst ph.
        apply (Hj id _ Hl).
      * rewrite lookup_insert_ne in Hl' by done. by apply Hj.
    + intros id' qt' st' Hl'. destruct (decide (id = id')) as [<-|Hne].
      * by rewrite lookup_insert_eq in Hl'.
      * rewrite lookup_insert_ne in Hl' by done. by apply (Ht id' qt' st').
  - (* the timeout timer *)
    unfold timeoutFires.
    destruct (timeouts w !! id) as [due|]; [|done].
    case_match; [|done]. simpl.
    destruct H as [Hq Hj Ht Hs].
    destruct (jobs w !! id) as [[| | qt st|]|] eqn:Hl; split; simpl; try done;
      try (intros id' qt' st' Hl'; destruct (decide (id = id')) as [<-|Hne];
           [congruence | rewrite lookup_delete_ne by done;
                         by apply (Ht id' qt' st')]).
    + intros id' ph Hl'. destruct (decide (id = id')) as [<-|Hne].
      * rewrite lookup_insert_eq in Hl'. inversion Hl'; subst ph.
        apply (Hj id _ Hl).
      * rewrite lookup_insert_ne in Hl' by done. by apply Hj.
    + intros id' qt' st' Hl'. destruct (decide (id = id')) as [<-|Hne].
      * by rewrite lookup_insert_eq in Hl'.
      * rewrite lookup_insert_ne in Hl' by done.
        rewrite lookup_delete_ne by done. by apply (Ht id' qt' st').
  - (* the job is settled *)
    unfold executeJobSettled.
    destruct (jobs w !! id) as [[| | |qt st o]|] eqn:Hl; try done.
    apply time_ok_processNextJob.
    destruct H as [Hq Hj Ht Hs]. split; simpl; try done.
    + intros id' ph Hl'. apply lookup_delete_Some in Hl' as [_ Hl'].
      by apply Hj.
    + intros id' qt' st' Hl'. apply lookup_delete_Some in Hl' as [_ Hl'].
      by apply (Ht id' qt' st').
    + intros id' r [Hin | Hin%list_elem_of_singleton]%elem_of_app;
        [by apply Hs|].
      destruct (Hj id _ Hl) as (qst & dq & ? & ? & ? & ? & ? & ? & ?).
      destruct o as [v|msg]; simpl in Hin; inversion Hin; subst id' r.
      exists qst, dq, st. simpl. repeat split; auto; lia.
Qed.

(** ** Reachable worlds *)

Lemma inv_step (w : World) (e : Event) : inv w → inv (step w e).
Proof.
  intros [Hi Hc Ht]. split;
    auto using ids_ok_step, count_ok_step, time_ok_step.
Qed.

Lemma inv_init (t0 : Z) (options : JobQueueOptions) (w0 : World) :
  constructor t0 options = inr w0 → inv w0.
Proof.
  intros H. apply constructor_inr in H
    as (Hc & Ha & Hq & Hd & Hjs & Hclk & Hn & Hj & Hto & Hacc & Hdq & Hst & Hse & Hr).
  destruct w0; simpl in *; subst.
  split; split; unfold fifo; simpl; try done.
  - intros id Hin. by apply elem_of_nil in Hin.
  - apply NoDup_nil_2.
  - intros id [x Hx]. by rewrite lookup_empty in Hx.
  - intros id Hin. by apply elem_of_nil in Hin.
  - apply NoDup_nil_2.
  - intros id Hin. by apply elem_of_nil in Hin.
  - lia.
  - intros e He. by apply elem_of_nil in He.
  - intros id r Hin. by apply elem_of_nil in Hin.
Qed.

Lemma inv_run (t0 : Z) (options : JobQueueOptions) (w0 : World) (es : list Event) :
  constructor t0 options = inr w0 → inv (run w0 es).
Proof.
  intros H. apply run_invariant; [apply inv_step | by eapply inv_init].
Qed.

(** The three limits are [readonly]. *)
Lemma config_step (w : World) (e : Event) :
  concurrencyLimit (step w e) = concurrencyLimit w ∧
  rateLimit (step w e) = rateLimit w ∧
  timeoutLimit (step w e) = timeoutLimit w.
Proof.
  destruct e as [| |d|id|id|id o|id|id]; simpl.
  - unfold schedule. simpl. destruct (isDisposed w); simpl; [done|].
    by open_processNextJob.
  - by rewrite dispose_eq.
  - done.
  - unfold rateTimerFires, pushStart. by repeat case_match.
  - unfold executeJob, executeWithTimeout. by repeat case_match.
  - unfold taskSettles. by repeat case_match.
  - unfold timeoutFires. by repeat case_match.
  - unfold executeJobSettled. repeat case_match; try done.
    by open_processNextJob.
Qed.

Lemma config_run (w : World) (es : list Event) :
  concurrencyLimit (run w es) = concurrencyLimit w ∧
  rateLimit (run w es) = rateLimit w ∧
  timeoutLimit (run w es) = timeoutLimit w.
Proof.
  revert w. induction es as [|e es IH]; intros w; [done|]. simpl.
  destruct (IH (step w e)) as (-> & -> & ->). apply config_step.
Qed.

(** ** One job among the others *)

Lemma processNextJob_lookup (w : World) (id : nat) :
  ids_ok w → is_Some (jobs w !! id) →
  jobs (processNextJob w) !! id = jobs w !! id.
Proof.
  intros Hids Hsome.
  pose proof (λ i, ids_queue_not_running w i Hids) as Hfresh.
  open_processNextJob; [done|].
  apply lookup_insert_ne. intros Heq.
  rewrite <- Heq, Hfresh in Hsome; [by destruct Hsome|].
  rewrite Hq. simpl. left.
Qed.

Lemma processNextJob_settled (w : World) : settled (processNextJob w) = settled w.
Proof. by open_processNextJob. Qed.



(** An event other than these leaves the suspended call [id] alone. *)
Lemma jobs_step_other (w : World) (e : Event) (id : nat) :
  ids_ok w → is_Some (jobs w !! id) →
  e ≠ RateTimerFires id → e ≠ Resume id → (∀ o, e ≠ TaskSettles id o) →
  e ≠ TimeoutFires id → e ≠ Continue id →
  jobs (step w e) !! id = jobs w !! id.
Proof.
  intros Hids Hsome H1 H2 H3 H4 H5.
  destruct e as [| |d|id'|id'|id' o|id'|id']; simpl.
  - unfold schedule. simpl. destruct (isDisposed w); simpl; [done|].
    by rewrite processNextJob_lookup; [|apply ids_ok_pushed|].
  - by rewrite dispose_eq.
  - done.
  - unfold rateTimerFires, pushStart. repeat case_match; try done. simpl.
    apply lookup_insert_ne. congruence.
  - unfold executeJob, executeWithTimeout. repeat case_match; try done. simpl.
    apply lookup_insert_ne. congruence.
  - unfold taskSettles. repeat case_match; try done. simpl.
    apply lookup_insert_ne. intros ->. by apply (H3 o).
  - unfold timeoutFires. repeat case_match; try done. simpl.
    apply lookup_insert_ne. congruence.
  - unfold executeJobSettled.
    destruct (jobs w !! id') as [[| | |qt st o]|] eqn:Hl; try done.
    assert (id' ≠ id) by congruence.
    rewrite processNextJob_lookup; simpl.
    + by apply lookup_delete_ne.
    + exact (ids_ok_delivered w id' _ (deliver o qt (clock w - st)) Hids Hl).
    + by rewrite lookup_delete_ne.
Qed.

(** Once [Promise.race] is settled, only the resumption of [executeJob]
    changes the suspended call. *)
Lemma raced_step (w : World) (e : Event) (id : nat) (qt st : Z) (o : Outcome) :
  ids_ok w → jobs w !! id = Some (Raced qt st o) → e ≠ Continue id →
  jobs (step w e) !! id = Some (Raced qt st o).
Proof.
  intros Hids Hl Hne.
  destruct (decide (e = RateTimerFires id)) as [->|?].
  { simpl. unfold rateTimerFires. by rewrite Hl. }
  destruct (decide (e = Resume id)) as [->|?].
  { simpl. unfold executeJob. by rewrite Hl. }
  destruct (decide (e = TimeoutFires id)) as [->|?].
  { simpl. unfold timeoutFires. destruct (timeouts w !! id) as [due|]; [|done].
    destruct (due <=? clock w); [|done]. simpl. by rewrite Hl. }
  destruct e as [| |d|id'|id'|id' o'|id'|id'];
    try (rewrite jobs_step_other; by rewrite ?Hl).
  destruct (decide (id' = id)) as [->|?].
  - simpl. unfold taskSettles. by rewrite Hl.
  - rewrite jobs_step_other; rewrite ?Hl; try done. congruence.
Qed.


Lemma executeJobSettled_settled (w : World) (id : nat) (qt st : Z) (o : Outcome) :
  jobs w !! id = Some (Raced qt st o) →
  settled (executeJobSettled id w)
  = settled w ++ [(id, deliver o qt (clock w - st))].
Proof.
  intros Hl. unfold executeJobSettled. rewrite Hl.
  by rewrite processNextJob_settled.
Qed.

(* ------------------------------------------------------------------ *)
(** * The specification, statement by statement *)

(** C1. For every sequence of events on one [JobQueue] (calls of
    [schedule] and [dispose], timers, settlements, in any order), the
    entries shifted from the pending queue so far, followed by the
    entries still pending, are exactly the accepted submissions in
    submission order, each of them once: entries leave the queue from the
    front, in first-in first-out order, none reordered and none skipped,
    whatever the rate limiter delays. *)
Theorem fifo_dequeue_order (t0 : Z) (options : JobQueueOptions) (w0 : World)
    (es : list Event) :
  constructor t0 options = inr w0 →
  let w := run w0 es in
  (dequeued w).*1 ++ (eid <$> queue w) = (accepted w).*1
  ∧ NoDup (accepted w).*1.
Proof.
  intros H w. destruct (inv_run t0 options w0 es H) as [Hi _ _].
  split; [apply (ids_fifo _ Hi) | apply (ids_accepted_nodup _ Hi)].
Qed.

Lemma fifo_dequeue_order_witness :
  constructor 0 rate1 = inr w_rate1
  ∧ let w := run w_rate1 back_to_back in
    (dequeued w).*1 ++ (eid <$> queue w) = (accepted w).*1
    ∧ NoDup (accepted w).*1.
Proof.
  split; [reflexivity|].
  exact (fifo_dequeue_order 0 rate1 w_rate1 back_to_back eq_refl).
Defined.

(** C3. In every reachable state of a [JobQueue] constructed with
    [concurrencyLimit = C] (the default is 1000), the counter satisfies
    [0 <= activeJobs <= C]: [active()] never exceeds the limit and never
    goes negative, whatever the operations performed. *)
Theorem active_within_limit (t0 : Z) (options : JobQueueOptions) (w0 : World)
    (es : list Event) :
  constructor t0 options = inr w0 →
  0 <= active (run w0 es) <= default 1000 (opt_concurrencyLimit options).
Proof.
  intros H. destruct (inv_run t0 options w0 es H) as [_ [Ha Hle _] _].
  destruct (config_run w0 es) as (Hc & _ & _). unfold active.
  assert (Hdef : concurrencyLimit w0 = default 1000 (opt_concurrencyLimit options)).
  { unfold constructor in H. repeat case_match; try discriminate;
      by inversion H. }
  rewrite <- Hdef, <- Hc. split; [|done]. rewrite Ha. lia.
Qed.

Lemma active_within_limit_witness :
  constructor 0 rate1 = inr w_rate1
  ∧ 0 <= active (run w_rate1 back_to_back) <= 1000.
Proof.
  split; [reflexivity|].
  exact (active_within_limit 0 rate1 w_rate1 back_to_back eq_refl).
Defined.

Lemma deq_ok_processNextJob (w : World) : deq_ok w → deq_ok (processNextJob w).
Proof.
  unfold deq_ok. intros H. open_processNextJob; [done|].
  intros id. rewrite fmap_app, elem_of_app. simpl.
  rewrite list_elem_of_singleton, lookup_insert_is_Some.
  intros [Hin | ->]; [|by left; left].
  destruct (H id Hin) as [?|?]; [|by right].
  left. destruct (decide (eid next = id)); [by left | by right].
Qed.

Lemma deq_ok_step (w : World) (e : Event) : deq_ok w → deq_ok (step w e).
Proof.
  intros H. destruct e as [| |d|id|id|id o|id|id]; simpl.
  - unfold schedule. simpl. destruct (isDisposed w) eqn:Hd; simpl.
    + intros id Hin. simpl in *. destruct (H id Hin) as [?|?]; [by left|].
      right. rewrite fmap_app. apply elem_of_app. by left.
    + by apply deq_ok_processNextJob.
  - rewrite dispose_eq. intros id. simpl.
    rewrite !fmap_app, !elem_of_app, <- !list_fmap_compose.
    intros [Hin | Hin]; [|by right; right].
    destruct (H id Hin) as [?|?]; [by left | by right; left].
  - done.
  - unfold rateTimerFires, pushStart.
    destruct (jobs w !! id) as [[| | |]|] eqn:Hl; try done.
    case_match; [|done]. intros id' Hin. simpl in *.
    rewrite lookup_insert_is_Some. destruct (H id' Hin) as [?|?]; [|by right].
    left. destruct (decide (id = id')); [by left | by right].
  - unfold executeJob, executeWithTimeout.
    destruct (jobs w !! id) as [[| | |]|] eqn:Hl; try done.
    intros id' Hin. simpl in *.
    rewrite lookup_insert_is_Some. destruct (H id' Hin) as [?|?]; [|by right].
    left. destruct (decide (id = id')); [by left | by right].
  - unfold taskSettles.
    destruct (jobs w !! id) as [[| | |]|] eqn:Hl; try done.
    intros id' Hin. simpl in *.
    rewrite lookup_insert_is_Some. destruct (H id' Hin) as [?|?]; [|by right].
    left. destruct (decide (id = id')); [by left | by right].
  - unfold timeoutFires.
    destruct (timeouts w !! id) as [due|]; [|done].
    case_match; [|done]. simpl.
    destruct (jobs w !! id) as [[| | |]|] eqn:Hl; try done.
    intros id' Hin. simpl in *.
    rewrite lookup_insert_is_Some. destruct (H id' Hin) as [?|?]; [|by right].
    left. destruct (decide (id = id')); [by left | by right].
  - unfold executeJobSettled.
    destruct (jobs w !! id) as [[| | |qt st o]|] eqn:Hl; try done.
    apply deq_ok_processNextJob. intros id' Hin. simpl in *.
    rewrite fmap_app, elem_of_app. simpl. rewrite list_elem_of_singleton.
    destruct (decide (id = id')) as [->|Hne]; [by right; right|].
    destruct (H id' Hin) as [?|?]; [|by right; left].
    left. by rewrite lookup_delete_ne.
Qed.

Lemma deq_ok_run (t0 : Z) (options : JobQueueOptions) (w0 : World) (es : list Event) :
  constructor t0 options = inr w0 → deq_ok (run w0 es).
Proof.
  intros H. apply run_invariant; [apply deq_ok_step|].
  apply constructor_inr in H as (_&_&_&_&_&_&_&_&_&_& Hdq &_).
  intros id. rewrite Hdq. simpl. intros Hin. by apply elem_of_nil in Hin.
Qed.

(** C7, as stated, fails: with [rateLimit = 1] the second of two jobs
    is shifted, suspended in its rate-limit wait with its body not
    begun, and yet counted by [active()]: the count is 2 while one job is
    executing. *)
Lemma active_counts_rate_waiting :
  let w := run w_rate1 two_jobs in
  jobs w !! 1%nat = Some (RateWaiting 0 0 60000)
  ∧ started w = [(0%nat, 0)]
  ∧ active w = 2 ∧ executing w = 1.
Proof. vm_compute. repeat split; reflexivity. Qed.

(** C7, amended. [activeJobs] is incremented when an entry is shifted
    from the queue by a dispatch attempt, before the rate limiter is
    consulted, and decremented when the settlement of the job has been
    delivered, on every path.  So [active()] is the number of shifted
    entries whose job is not settled yet: it includes the jobs suspended
    in a rate-limit wait, and the executing jobs are among them. *)
Theorem active_counts_unsettled (t0 : Z) (options : JobQueueOptions)
    (w0 : World) (es : list Event) :
  constructor t0 options = inr w0 →
  let w := run w0 es in
  active w = Z.of_nat (size (jobs w))
  ∧ (∀ id, is_Some (jobs w !! id)
           ↔ id ∈ (dequeued w).*1 ∧ id ∉ (settled w).*1)
  ∧ executing w <= active w.
Proof.
  intros H w. destruct (inv_run t0 options w0 es H) as [Hi [Ha _ _] _].
  pose proof (deq_ok_run t0 options w0 es H) as Hd. fold w in Hd, Hi, Ha.
  split; [done|]. split.
  - intros id. split.
    + intros Hs. split; [by apply (ids_jobs_dequeued w Hi)|].
      intros Hin. rewrite (ids_settled_not_running w Hi id Hin) in Hs.
      by destruct Hs.
    + intros [Hin Hns]. by destruct (Hd id Hin).
  - unfold active, executing. rewrite Ha, <- length_map_to_list.
    apply inj_le, filter_length_le.
Qed.

Lemma active_counts_unsettled_witness :
  constructor 0 rate1 = inr w_rate1
  ∧ let w := run w_rate1 two_jobs in
    active w = Z.of_nat (size (jobs w))
    ∧ (∀ id, is_Some (jobs w !! id)
             ↔ id ∈ (dequeued w).*1 ∧ id ∉ (settled w).*1)
    ∧ executing w <= active w.
Proof.
  split; [reflexivity|].
  exact (active_counts_unsettled 0 rate1 w_rate1 two_jobs eq_refl).
Defined.

(** C9, as stated, fails: with [rateLimit = 1] and the default
    concurrency limit, the second job is still suspended in its
    rate-limit wait when the third [schedule] call shifts the third
    entry. *)
Lemma dequeue_during_rate_wait :
  let w2 := run w_rate1 [Schedule; Schedule] in
  let w3 := step w2 Schedule in
  jobs w2 !! 1%nat = Some (RateWaiting 0 0 60000)
  ∧ (dequeued w2).*1 = [0%nat; 1%nat]
  ∧ jobs w3 !! 1%nat = Some (RateWaiting 0 0 60000)
  ∧ (dequeued w3).*1 = [0%nat; 1%nat; 2%nat].
Proof. vm_compute. repeat split; reflexivity. Qed.

(** C9, amended. A rate-limit wait in progress does not hold the
    dispatcher back: an entry stays in the pending queue only while every
    concurrency slot is taken, that is while [activeJobs] equals
    [concurrencyLimit] (a job in its rate-limit wait holds one slot). *)
Theorem pending_only_when_full (t0 : Z) (options : JobQueueOptions)
    (w0 : World) (es : list Event) :
  constructor t0 options = inr w0 →
  let w := run w0 es in
  queue w ≠ [] → active w = default 1000 (opt_concurrencyLimit options).
Proof.
  intros H w Hq. destruct (inv_run t0 options w0 es H) as [_ [Ha Hle Hfull] _].
  destruct (config_run w0 es) as (Hc & _ & _). fold w in Ha, Hle, Hfull, Hc.
  assert (Hdef : concurrencyLimit w0 = default 1000 (opt_concurrencyLimit options)).
  { unfold constructor in H. repeat case_match; try discriminate;
      by inversion H. }
  specialize (Hfull Hq). unfold active. lia.
Qed.

Lemma pending_only_when_full_witness :
  constructor 0 one_slot = inr w_one_slot
  ∧ queue (run w_one_slot [Schedule; Schedule]) ≠ []
  ∧ active (run w_one_slot [Schedule; Schedule]) = 1.
Proof.
  split; [reflexivity|]. split; [discriminate|].
  exact (pending_only_when_full 0 one_slot w_one_slot [Schedule; Schedule]
           eq_refl ltac:(discriminate)).
Defined.

(** C6, as stated, fails: job 1 of [delayed_job] is submitted and
    shifted at time 10, so its dequeue time minus its submission time is
    0, and the reported [queueTime] is 59990: the whole rate-limit wait. *)
Lemma queueTime_includes_rate_wait :
  let w := run w_rate1 delayed_job in
  (1%nat, 10) ∈ accepted w ∧ (1%nat, 10) ∈ dequeued w
  ∧ settled w = [(1%nat, Resolved (mkJobResult "done" 59990 5))]
  ∧ 59990 ≠ 10 - 10.
Proof.
  vm_compute. repeat split; try reflexivity; try discriminate.
  - right. left.
  - right. left.
Qed.

(** C6, amended. For every job that resolves, the reported [queueTime]
    is the time at which [executeJob] begins (after [enforceRateLimit]
    returned, hence after any rate-limit wait) minus the submission time.
    The entry was shifted between the two, so [queueTime] is at least
    the dequeue time minus the submission time, and it is never
    negative; it includes the rate-limit wait served after the shift. *)
Theorem queueTime_is_start_minus_submission (t0 : Z)
    (options : JobQueueOptions) (w0 : World) (es : list Event)
    (id : nat) (r : JobResult) :
  constructor t0 options = inr w0 →
  let w := run w0 es in
  (id, Resolved r) ∈ settled w →
  ∃ submitted shifted begun,
    (id, submitted) ∈ accepted w ∧ (id, shifted) ∈ dequeued w
    ∧ (id, begun) ∈ started w
    ∧ queueTime r = begun - submitted
    ∧ 0 <= shifted - submitted <= queueTime r.
Proof.
  intros H w Hin. destruct (inv_run t0 options w0 es H) as [_ _ [_ _ _ Hs]].
  destruct (Hs id r Hin) as (q & dq & st & ? & ? & ? & ? & ? & ? & ?).
  exists q, dq, st. repeat split; auto; lia.
Qed.

Lemma queueTime_is_start_minus_submission_witness :
  constructor 0 rate1 = inr w_rate1
  ∧ (1%nat, Resolved (mkJobResult "done" 59990 5))
      ∈ settled (run w_rate1 delayed_job)
  ∧ ∃ submitted shifted begun,
      (1%nat, submitted) ∈ accepted (run w_rate1 delayed_job)
      ∧ (1%nat, shifted) ∈ dequeued (run w_rate1 delayed_job)
      ∧ (1%nat, begun) ∈ started (run w_rate1 delayed_job)
      ∧ queueTime (mkJobResult "done" 59990 5) = begun - submitted
      ∧ 0 <= shifted - submitted <= queueTime (mkJobResult "done" 59990 5).
Proof.
  split; [reflexivity|].
  assert (Hin : (1%nat, Resolved (mkJobResult "done" 59990 5))
                  ∈ settled (run w_rate1 delayed_job)).
  { vm_compute. left. }
  split; [exact Hin|].
  exact (queueTime_is_start_minus_submission 0 rate1 w_rate1 delayed_job
           1%nat _ eq_refl Hin).
Defined.

(** C2: the code at two failing inputs, both with [rateLimit = 1].
    In [back_to_back] three jobs are submitted at time 0: the second and
    the third compute the same wait from the same window, wake together
    and both start at time 60000.  In [after_the_wait] the second job
    starts at 60000 after its wait, but the timestamp recorded for it is
    the one read before the wait, so a third job submitted at 60001
    finds the window empty and starts at once.  Either way two jobs start
    within one trailing window of 60000 ms, and the window holds more
    timestamps than [rateLimit]. *)
Theorem rate_limit_exceeded :
  (let w := run w_rate1 back_to_back in
   rateLimit w = Some 1
   ∧ started w = [(0%nat, 0); (1%nat, 60000); (2%nat, 60000)]
   ∧ startsInWindow 60000 w = 2%nat
   ∧ jobStartTimes w = [0; 0; 0])
  ∧ (let w := run w_rate1 after_the_wait in
     rateLimit w = Some 1
     ∧ started w = [(0%nat, 0); (1%nat, 60000); (2%nat, 60001)]
     ∧ startsInWindow 60001 w = 2%nat).
Proof. vm_compute. repeat split; reflexivity. Qed.

(** C8: the code at the failing input.  Job 1 calls
    [enforceRateLimit] at time 10, waits, and is woken at time 60000;
    the timestamp it appends is 10, the value read before the wait, and
    not the time after the wait.  (One timestamp is appended for it.) *)
Theorem stale_timestamp_appended :
  let w := run w_rate1 woken in
  let w' := step w (RateTimerFires 1%nat) in
  jobs w !! 1%nat = Some (RateWaiting 10 10 60000)
  ∧ jobStartTimes w = [0]
  ∧ clock w' = 60000
  ∧ jobStartTimes w' = [0; 10].
Proof. vm_compute. repeat split; reflexivity. Qed.

(** ** After the task has been started *)

Lemma settled_step_mono (w : World) (e : Event) (id : nat) :
  id ∈ (settled w).*1 → id ∈ (settled (step w e)).*1.
Proof.
  intros Hin. destruct e as [| |d|id'|id'|id' o|id'|id']; simpl.
  - unfold schedule. simpl. destruct (isDisposed w); simpl.
    + rewrite fmap_app. apply elem_of_app. by left.
    + by rewrite processNextJob_settled.
  - rewrite dispose_eq. simpl. rewrite fmap_app. apply elem_of_app. by left.
  - done.
  - unfold rateTimerFires, pushStart. by repeat case_match.
  - unfold executeJob, executeWithTimeout. by repeat case_match.
  - unfold taskSettles. by repeat case_match.
  - unfold timeoutFires. by repeat case_match.
  - unfold executeJobSettled.
    destruct (jobs w !! id') as [[| | |qt st o]|] eqn:Hl; try done.
    rewrite processNextJob_settled. simpl.
    rewrite fmap_app. apply elem_of_app. by left.
Qed.

Lemma begun_step (w : World) (e : Event) (id : nat) :
  ids_ok w → begun w id → begun (step w e) id.
Proof.
  intros Hids Hb. pose proof (ids_ok_step w e Hids) as Hids'.
  unfold begun in Hb. destruct (jobs w !! id) as [ph|] eqn:Hl.
  2:{ unfold begun.
      rewrite (ids_settled_not_running _ Hids' id (settled_step_mono w e id Hb)).
      by apply settled_step_mono. }
  destruct (decide (e = Continue id)) as [->|Hc].
  { simpl in *. destruct ph as [| | |qt st o]; try done.
    - unfold executeJobSettled, begun. by rewrite Hl, Hl.
    - assert (Hin : id ∈ (settled (executeJobSettled id w)).*1).
      { rewrite (executeJobSettled_settled w id qt st o Hl), fmap_app.
        apply elem_of_app. right. simpl. left. }
      unfold begun.
      by rewrite (ids_settled_not_running _ Hids' id Hin). }
  destruct ph as [| |qt st|qt st o]; try done.
  - (* racing *)
    destruct (decide (e = RateTimerFires id)) as [->|?].
    { simpl. unfold rateTimerFires, begun. by rewrite Hl, Hl. }
    destruct (decide (e = Resume id)) as [->|?].
    { simpl. unfold executeJob, begun. by rewrite Hl, Hl. }
    destruct (decide (e = TimeoutFires id)) as [->|?].
    { simpl. unfold timeoutFires, begun.
      destruct (timeouts w !! id) as [due|]; [|by rewrite Hl].
      destruct (due <=? clock w); [|by rewrite Hl]. simpl. rewrite Hl. simpl.
      by rewrite lookup_insert_eq. }
    destruct e as [| |d|id'|id'|id' o'|id'|id'];
      try (unfold begun; rewrite jobs_step_other; by rewrite ?Hl).
    destruct (decide (id' = id)) as [->|?].
    + simpl. unfold taskSettles, begun. rewrite Hl. simpl.
      by rewrite lookup_insert_eq.
    + unfold begun. rewrite jobs_step_other; rewrite ?Hl; try done. congruence.
  - (* raced *)
    unfold begun. by rewrite (raced_step w e id qt st o Hids Hl Hc).
Qed.











(** ** Disposal and the jobs already shifted *)










Lemma closed_step (w : World) (e : Event) : closed w → closed (step w e).
Proof.
  intros [Hd Hq]. unfold closed.
  destruct e as [| |d|id'|id'|id' o|id'|id']; simpl.
  - unfold schedule. simpl. by rewrite Hd.
  - by rewrite dispose_eq.
  - done.
  - unfold rateTimerFires, pushStart. by repeat case_match.
  - unfold executeJob, executeWithTimeout. by repeat case_match.
  - unfold taskSettles. by repeat case_match.
  - unfold timeoutFires. by repeat case_match.
  - unfold executeJobSettled. repeat case_match; try done.
    open_processNextJob; [done|]. by rewrite Hq in Hq0.
Qed.

Lemma closed_run (es : list Event) (w : World) : closed w → closed (run w es).
Proof. apply run_invariant, closed_step. Qed.




(* ------------------------------------------------------------------ *)
(** * Further properties of the code *)

(** ** The constructor *)

Ltac solve_constructor_case :=
  repeat match goal with
         | |- _ ∧ _ => split
         | |- _ ↔ _ => split
         end;
  intros; try done; try tauto; try discriminate; try (by eexists);
  try match goal with H : ∃ _ : World, _ |- _ => destruct H; discriminate end.

(** X1. [constructor] throws exactly when a limit that is given is not
    positive; the checks run in the order [concurrencyLimit],
    [rateLimit], [timeoutLimit], and the message names the first limit
    that fails. *)
Theorem constructor_validation (t0 : Z) (options : JobQueueOptions) :
  let bad (o : option Z) := ∃ x, o = Some x ∧ x <= 0 in
  (constructor t0 options = inl "concurrencyLimit must be greater than 0"%string
   ↔ bad (opt_concurrencyLimit options))
  ∧ (constructor t0 options = inl "rateLimit must be greater than 0"%string
     ↔ ¬ bad (opt_concurrencyLimit options) ∧ bad (opt_rateLimit options))
  ∧ (constructor t0 options = inl "timeoutLimit must be greater than 0"%string
     ↔ ¬ bad (opt_concurrencyLimit options) ∧ ¬ bad (opt_rateLimit options)
       ∧ bad (opt_timeoutLimit options))
  ∧ ((∃ w, constructor t0 options = inr w)
     ↔ ¬ bad (opt_concurrencyLimit options) ∧ ¬ bad (opt_rateLimit options)
       ∧ ¬ bad (opt_timeoutLimit options)).
Proof.
  intros bad. unfold constructor.
  assert (Hbad : ∀ o, (match o with Some c => c <=? 0 | None => false end) = true
                      ↔ bad o).
  { intros [c|]; unfold bad; split.
    - intros ?%Z.leb_le. by exists c.
    - intros (x & [= ->] & ?). by apply Z.leb_le.
    - done.
    - by intros (x & ? & ?). }
  destruct (match opt_concurrencyLimit options with
            | Some c => c <=? 0 | None => false end) eqn:Hc.
  { apply Hbad in Hc. solve_constructor_case. }
  assert (Hc' : ¬ bad (opt_concurrencyLimit options)).
  { intros ?%Hbad. congruence. }
  destruct (match opt_rateLimit options with
            | Some c => c <=? 0 | None => false end) eqn:Hr.
  { apply Hbad in Hr. solve_constructor_case. }
  assert (Hr' : ¬ bad (opt_rateLimit options)).
  { intros ?%Hbad. congruence. }
  destruct (match opt_timeoutLimit options with
            | Some c => c <=? 0 | None => false end) eqn:Ht.
  { apply Hbad in Ht. solve_constructor_case. }
  assert (Ht' : ¬ bad (opt_timeoutLimit options)).
  { intros ?%Hbad. congruence. }
  solve_constructor_case.
Qed.



(** ** Every call is accounted for *)

Lemma accounted_processNextJob (w : World) :
  ids_ok w → accounted w → accounted (processNextJob w).
Proof.
  unfold accounted. intros Hids Hacc.
  pose proof (λ i, ids_queue_not_running w i Hids) as Hfresh.
  open_processNextJob; [done|].
  rewrite map_size_insert_None; [rewrite Hq in Hacc; simpl in Hacc; lia|].
  apply Hfresh. rewrite Hq. simpl. left.
Qed.

Lemma accounted_step (w : World) (e : Event) :
  ids_ok w → accounted w → accounted (step w e).
Proof.
  intros Hids Hacc. destruct e as [| |d|id|id|id o|id|id]; simpl.
  - unfold schedule. simpl. destruct (isDisposed w) eqn:Hd; simpl.
    + unfold accounted in *. simpl. rewrite length_app. simpl. lia.
    + apply accounted_processNextJob; [by apply ids_ok_pushed|].
      unfold accounted in *. simpl. rewrite length_app. simpl. lia.
  - rewrite dispose_eq. unfold accounted in *. simpl.
    rewrite length_app, length_fmap. lia.
  - done.
  - unfold rateTimerFires, pushStart.
    destruct (jobs w !! id) as [[| | |]|] eqn:Hj; try done.
    case_match; [|done]. unfold accounted in *. simpl.
    rewrite map_size_insert_Some; [done|]. by rewrite Hj.
  - unfold executeJob, executeWithTimeout.
    destruct (jobs w !! id) as [[| | |]|] eqn:Hj; try done.
    unfold accounted in *. simpl.
    rewrite map_size_insert_Some; [done|]. by rewrite Hj.
  - unfold taskSettles.
    destruct (jobs w !! id) as [[| | |]|] eqn:Hj; try done.
    unfold accounted in *. simpl.
    rewrite map_size_insert_Some; [done|]. by rewrite Hj.
  - unfold timeoutFires.
    destruct (timeouts w !! id) as [due|]; [|done].
    case_match; [|done]. simpl.
    destruct (jobs w !! id) as [[| | |]|] eqn:Hj; try done.
    unfold accounted in *. simpl.
    rewrite map_size_insert_Some; [done|]. by rewrite Hj.
  - unfold executeJobSettled.
    destruct (jobs w !! id) as [[| | |qt st o]|] eqn:Hj; try done.
    assert (Hpos : (0 < size (jobs w))%nat).
    { destruct (size (jobs w)) eqn:Hs; [|lia].
      apply map_size_empty_inv in Hs. rewrite Hs, lookup_empty in Hj. done. }
    apply accounted_processNextJob.
    + exact (ids_ok_delivered w id _ (deliver o qt (clock w - st)) Hids Hj).
    + unfold accounted in *. simpl. rewrite length_app. simpl.
      rewrite map_size_delete_Some; [lia|]. by rewrite Hj.
Qed.

Lemma nextId_step (w : World) (e : Event) :
  nextId (step w e)
  = (nextId w + if bool_decide (e = Schedule) then 1 else 0)%nat.
Proof.
  destruct e as [| |d|id|id|id o|id|id]; simpl.
  - unfold schedule. simpl. destruct (isDisposed w); simpl; [lia|].
    open_processNextJob; lia.
  - rewrite dispose_eq. simpl. lia.
  - lia.
  - unfold rateTimerFires, pushStart. repeat case_match; simpl; lia.
  - unfold executeJob, executeWithTimeout. repeat case_match; simpl; lia.
  - unfold taskSettles. repeat case_match; simpl; lia.
  - unfold timeoutFires. repeat case_match; simpl; lia.
  - unfold executeJobSettled. repeat case_match; simpl; try lia.
    open_processNextJob; lia.
Qed.

Lemma nextId_run (es : list Event) (w : World) :
  nextId (run w es)
  = (nextId w + length (List.filter (λ e, bool_decide (e = Schedule)) es))%nat.
Proof.
  revert w. induction es as [|e es IH]; intros w; simpl; [lia|].
  rewrite IH, nextId_step. destruct (bool_decide (e = Schedule)); simpl; lia.
Qed.

(** X3. At every moment the number of [schedule] calls made so far is
    [size()] plus [active()] plus the number of promises already
    settled: each call is pending, or shifted and not settled, or
    settled, and no call is lost or counted twice. *)
Theorem every_call_accounted (t0 : Z) (options : JobQueueOptions)
    (w0 : World) (es : list Event) :
  constructor t0 options = inr w0 →
  let w := run w0 es in
  Z.of_nat (length (List.filter (λ e, bool_decide (e = Schedule)) es))
  = size_ w + active w + Z.of_nat (length (settled w)).
Proof.
  intros H w.
  assert (Hboth : ids_ok w ∧ accounted w).
  { apply (run_invariant (λ w, ids_ok w ∧ accounted w)).
    - intros w' e [Hi Ha]. split; [by apply ids_ok_step | by apply accounted_step].
    - split; [by destruct (inv_init t0 options w0 H)|].
      apply constructor_inr in H
        as (_ & _ & Hq & _ & _ & _ & Hn & Hj & _ & _ & _ & _ & Hs & _).
      unfold accounted. by rewrite Hq, Hn, Hj, Hs. }
  destruct Hboth as [_ Hacc].
  destruct (inv_run t0 options w0 es H) as [_ [Ha _ _] _]. fold w in Ha.
  unfold accounted in Hacc. unfold w in Hacc at 1. rewrite nextId_run in Hacc.
  apply constructor_inr in H
    as (_ & _ & _ & _ & _ & _ & Hn & _).
  rewrite Hn in Hacc. unfold size_, active. rewrite Ha. lia.
Qed.

Lemma every_call_accounted_witness :
  constructor 0 one_slot = inr w_one_slot
  ∧ (let w := run w_one_slot one_running_two_pending in
     Z.of_nat (length (List.filter (λ e, bool_decide (e = Schedule))
                         one_running_two_pending))
     = size_ w + active w + Z.of_nat (length (settled w))).
Proof.
  split; [reflexivity|].
  exact (every_call_accounted 0 one_slot w_one_slot one_running_two_pending
           eq_refl).
Defined.

(** ** The rate limiter *)

Lemma unlimited_processNextJob (w : World) :
  rateLimit w = None → unlimited_ok w → unlimited_ok (processNextJob w).
Proof.
  intros Hr [Hw Hj]. unfold processNextJob.
  destruct (_ || _); [done|].
  destruct (queue w) as [|next rest]; [done|].
  unfold enforceRateLimit. simpl. rewrite Hr. split; simpl; [done|].
  intros id qst now due. destruct (decide (eid next = id)) as [<-|Hne].
  - by rewrite lookup_insert_eq.
  - rewrite lookup_insert_ne by done. apply Hj.
Qed.

Lemma unlimited_step (w : World) (e : Event) :
  rateLimit w = None → unlimited_ok w → unlimited_ok (step w e).
Proof.
  intros Hr H. pose proof H as [Hw Hj].
  destruct e as [| |d|id|id|id o|id|id]; simpl.
  - unfold schedule. simpl. destruct (isDisposed w); simpl; [done|].
    by apply unlimited_processNextJob.
  - by rewrite dispose_eq.
  - done.
  - unfold rateTimerFires.
    destruct (jobs w !! id) as [[q0|qst now due| |]|] eqn:Hl; try done.
    by destruct (Hj id qst now due).
  - unfold executeJob, executeWithTimeout.
    destruct (jobs w !! id) as [[| | |]|] eqn:Hl; try done.
    split; simpl; [done|]. intros id' q' n' d'.
    destruct (decide (id = id')) as [<-|Hne];
      [by rewrite lookup_insert_eq | rewrite lookup_insert_ne by done; apply Hj].
  - unfold taskSettles.
    destruct (jobs w !! id) as [[| | |]|] eqn:Hl; try done.
    split; simpl; [done|]. intros id' q' n' d'.
    destruct (decide (id = id')) as [<-|Hne];
      [by rewrite lookup_insert_eq | rewrite lookup_insert_ne by done; apply Hj].
  - unfold timeoutFires.
    destruct (timeouts w !! id) as [due|]; [|done].
    case_match; [|done]. simpl.
    destruct (jobs w !! id) as [[| | |]|] eqn:Hl; try done.
    split; simpl; [done|]. intros id' q' n' d'.
    destruct (decide (id = id')) as [<-|Hne];
      [by rewrite lookup_insert_eq | rewrite lookup_insert_ne by done; apply Hj].
  - unfold executeJobSettled.
    destruct (jobs w !! id) as [[| | |qt st o]|] eqn:Hl; try done.
    apply unlimited_processNextJob; [done|]. split; simpl; [done|].
    intros id' q' n' d' Hl'. apply lookup_delete_Some in Hl' as [_ Hl'].
    by apply (Hj id' q' n' d').
Qed.

(** X4. When no [rateLimit] is given the rate limiter is inert: along
    every execution the window of timestamps stays empty and no job is
    ever suspended on a rate-limit timer, so every shifted job goes
    straight on to [executeJob]. *)
Theorem unlimited_never_waits (t0 : Z) (options : JobQueueOptions)
    (w0 : World) (es : list Event) :
  constructor t0 options = inr w0 →
  opt_rateLimit options = None →
  let w := run w0 es in
  jobStartTimes w = []
  ∧ (∀ id qst now due, jobs w !! id ≠ Some (RateWaiting qst now due))
  ∧ (∀ id, step w (RateTimerFires id) = w).
Proof.
  intros H Hnone w.
  assert (Hboth : rateLimit w = None ∧ unlimited_ok w).
  { apply (run_invariant (λ w, rateLimit w = None ∧ unlimited_ok w)).
    - intros w' e [Hr Hu]. split; [|by apply unlimited_step].
      destruct (config_step w' e) as (_ & -> & _). done.
    - apply constructor_inr in H
        as (_ & _ & _ & _ & Hjs & _ & _ & Hj & _ & _ & _ & _ & _ & Hr).
      split; [congruence|]. split; [done|].
      intros id qst now due. by rewrite Hj, lookup_empty. }
  destruct Hboth as [_ [Hw Hj]]. repeat split; try done.
  intros id. simpl. unfold rateTimerFires.
  destruct (jobs w !! id) as [[q0|qst now due| |]|] eqn:Hl; try done.
  by destruct (Hj id qst now due).
Qed.

Lemma unlimited_never_waits_witness :
  constructor 0 one_slot = inr w_one_slot
  ∧ opt_rateLimit one_slot = None
  ∧ (let w := run w_one_slot one_running_two_pending in
     jobStartTimes w = []
     ∧ (∀ id qst now due, jobs w !! id ≠ Some (RateWaiting qst now due))
     ∧ (∀ id, step w (RateTimerFires id) = w)).
Proof.
  split; [reflexivity|]. split; [reflexivity|].
  exact (unlimited_never_waits 0 one_slot w_one_slot one_running_two_pending
           eq_refl eq_refl).
Defined.

Lemma elem_of_List_filter {A} (f : A → bool) (l : list A) (x : A) :
  x ∈ List.filter f l ↔ x ∈ l ∧ f x = true.
Proof. rewrite !list_elem_of_In. apply filter_In. Qed.

Lemma rate_ok_enforceRateLimit (id : nat) (qst : Z) (w : World) :
  rate_ok w → rate_ok (enforceRateLimit id qst w).
Proof.
  intros [Hw Hj]. unfold enforceRateLimit, pushStart.
  assert (Hins : ∀ (m : gmap nat Phase) ph,
            (∀ q n d, ph ≠ RateWaiting q n d) →
            (∀ i q n d, m !! i = Some (RateWaiting q n d) →
                        n <= clock w ∧ n < d ∧ d <= n + 60000) →
            ∀ i q n d, <[id := ph]> m !! i = Some (RateWaiting q n d) →
                       n <= clock w ∧ n < d ∧ d <= n + 60000).
  { intros m ph Hph Hm i q n d. destruct (decide (id = i)) as [<-|Hne].
    - rewrite lookup_insert_eq. intros [= ->]. by destruct (Hph q n d).
    - rewrite lookup_insert_ne by done. apply Hm. }
  destruct (rateLimit w) as [R|]; [|split; simpl; [done | by apply Hins]].
  cbn zeta. simpl.
  set (pruned := List.filter (λ time, clock w - time <? 60000) (jobStartTimes w)).
  assert (Hp : ∀ t, t ∈ pruned → t <= clock w ∧ clock w - t < 60000).
  { intros t [Hin Hlt]%elem_of_List_filter. split; [by apply Hw|].
    by apply Z.ltb_lt. }
  assert (Hpush : ∀ t, t ∈ pruned ++ [clock w] → t <= clock w).
  { intros t [Hin | ->%list_elem_of_singleton]%elem_of_app;
      [by apply Hp | lia]. }
  destruct (R <=? Z.of_nat (length pruned));
    [|split; simpl; [done | by apply Hins]].
  destruct pruned as [|oldest rest] eqn:Hpr;
    [split; simpl; [done | by apply Hins]|].
  destruct (Z.ltb_spec 0 (60000 - (clock w - oldest)));
    [|split; simpl; [done | by apply Hins]].
  split; simpl.
  - intros t Hin. by apply Hp.
  - intros i q n d. destruct (decide (id = i)) as [<-|Hne].
    + rewrite lookup_insert_eq. intros [= <- <- <-].
      destruct (Hp oldest) as [? ?]; [left|]. lia.
    + rewrite lookup_insert_ne by done. apply Hj.
Qed.

Lemma rate_ok_processNextJob (w : World) : rate_ok w → rate_ok (processNextJob w).
Proof.
  intros H. unfold processNextJob.
  destruct (_ || _); [done|].
  destruct (queue w) as [|next rest]; [done|].
  apply rate_ok_enforceRateLimit. by destruct H.
Qed.

Lemma rate_ok_step (w : World) (e : Event) : rate_ok w → rate_ok (step w e).
Proof.
  intros H. pose proof H as [Hw Hj].
  assert (Hins : ∀ id ph,
            (∀ q n d, ph ≠ RateWaiting q n d) →
            ∀ i q n d, <[id := ph]> (jobs w) !! i = Some (RateWaiting q n d) →
                       n <= clock w ∧ n < d ∧ d <= n + 60000).
  { intros id ph Hph i q n d. destruct (decide (id = i)) as [<-|Hne].
    - rewrite lookup_insert_eq. intros [= ->]. by destruct (Hph q n d).
    - rewrite lookup_insert_ne by done. apply Hj. }
  destruct e as [| |d|id|id|id o|id|id]; simpl.
  - unfold schedule. simpl. destruct (isDisposed w); simpl; [done|].
    by apply rate_ok_processNextJob.
  - by rewrite dispose_eq.
  - split; simpl.
    + intros t Hin. specialize (Hw t Hin). lia.
    + intros i q n d' Hl. destruct (Hj i q n d' Hl) as (? & ? & ?).
      repeat split; lia.
  - unfold rateTimerFires, pushStart.
    destruct (jobs w !! id) as [[q0|qst now due| |]|] eqn:Hl; try done.
    case_match; [|done]. split; simpl.
    + intros t [Hin | ->%list_elem_of_singleton]%elem_of_app;
        [by apply Hw|]. by destruct (Hj id qst now due Hl).
    + by apply Hins.
  - unfold executeJob, executeWithTimeout.
    destruct (jobs w !! id) as [[| | |]|] eqn:Hl; try done.
    split; simpl; [done | by apply Hins].
  - unfold taskSettles.
    destruct (jobs w !! id) as [[| | |]|] eqn:Hl; try done.
    split; simpl; [done | by apply Hins].
  - unfold timeoutFires.
    destruct (timeouts w !! id) as [due|]; [|done].
    case_match; [|done]. simpl.
    destruct (jobs w !! id) as [[| | |]|] eqn:Hl; try done.
    split; simpl; [done | by apply Hins].
  - unfold executeJobSettled.
    destruct (jobs w !! id) as [[| | |qt st o]|] eqn:Hl; try done.
    apply rate_ok_processNextJob. split; simpl; [done|].
    intros i q n d Hl'. apply lookup_delete_Some in Hl' as [_ Hl'].
    by apply (Hj i q n d).
Qed.

(** X5. The rate limiter only looks back and never delays for long: in
    every reachable state the timestamps of the window are not in the
    future, and a job suspended by [enforceRateLimit] has a timer due
    strictly after the moment of its check and at most 60000 ms after
    it. *)
Theorem rate_wait_bounded (t0 : Z) (options : JobQueueOptions)
    (w0 : World) (es : list Event) :
  constructor t0 options = inr w0 →
  let w := run w0 es in
  (∀ t, t ∈ jobStartTimes w → t <= clock w)
  ∧ (∀ id qst now due, jobs w !! id = Some (RateWaiting qst now due) →
       now <= clock w ∧ now < due ∧ due <= now + 60000).
Proof.
  intros H w.
  assert (Hr : rate_ok w).
  { apply run_invariant; [apply rate_ok_step|].
    apply constructor_inr in H
      as (_ & _ & _ & _ & Hjs & _ & _ & Hj & _).
    split.
    - intros t. rewrite Hjs. by intros ?%elem_of_nil.
    - intros id q n d. by rewrite Hj, lookup_empty. }
  by destruct Hr.
Qed.

Lemma rate_wait_bounded_witness :
  constructor 0 rate1 = inr w_rate1
  ∧ (let w := run w_rate1 two_jobs in
     (∀ t, t ∈ jobStartTimes w → t <= clock w)
     ∧ (∀ id qst now due, jobs w !! id = Some (RateWaiting qst now due) →
          now <= clock w ∧ now < due ∧ due <= now + 60000)).
Proof.
  split; [reflexivity|].
  exact (rate_wait_bounded 0 rate1 w_rate1 two_jobs eq_refl).
Defined.

(** ** The reported times *)

Lemma elapsed_ok_processNextJob (w : World) :
  elapsed_ok w → elapsed_ok (processNextJob w).
Proof. unfold elapsed_ok. intros H. by open_processNextJob. Qed.

Lemma elapsed_ok_step (w : World) (e : Event) :
  time_ok w → elapsed_ok w → elapsed_ok (step w e).
Proof.
  intros Ht H. destruct e as [| |d|id|id|id o|id|id]; simpl.
  - unfold schedule. simpl. destruct (isDisposed w); simpl.
    + intros id r [Hin | Hin%list_elem_of_singleton]%elem_of_app;
        [by apply H | done].
    + apply elapsed_ok_processNextJob. intros id r Hin. simpl in *.
      destruct (H id r Hin) as (s & ? & ? & ? & ?).
      exists s. repeat split; auto using elem_of_snoc_l.
  - rewrite dispose_eq. intros id r. simpl.
    intros [Hin | Hin]%elem_of_app; [by apply H|].
    apply list_elem_of_fmap in Hin as (e & Heq & _). done.
  - intros id r Hin. simpl in *.
    destruct (H id r Hin) as (s & ? & ? & ? & ?).
    exists s. repeat split; auto. lia.
  - unfold rateTimerFires, pushStart. by repeat case_match.
  - unfold executeJob, executeWithTimeout. by repeat case_match.
  - unfold taskSettles. by repeat case_match.
  - unfold timeoutFires. by repeat case_match.
  - unfold executeJobSettled.
    destruct (jobs w !! id) as [[| | |qt st o]|] eqn:Hl; try done.
    apply elapsed_ok_processNextJob. intros id' r. simpl.
    intros [Hin | Hin%list_elem_of_singleton]%elem_of_app; [by apply H|].
    destruct (t_jobs w Ht id _ Hl) as (qst & dq & ? & ? & ? & ? & ? & ? & ?).
    destruct o as [v|msg]; simpl in Hin; inversion Hin; subst id' r.
    exists qst. simpl. repeat split; auto; lia.
Qed.

(** X6. For every job that resolves, [queueTime] and [executionTime]
    are both non-negative and together they do not exceed the time that
    has elapsed since the job was submitted. *)
Theorem reported_times_within_elapsed (t0 : Z) (options : JobQueueOptions)
    (w0 : World) (es : list Event) (id : nat) (r : JobResult) :
  constructor t0 options = inr w0 →
  let w := run w0 es in
  (id, Resolved r) ∈ settled w →
  ∃ submitted, (id, submitted) ∈ accepted w
    ∧ 0 <= queueTime r ∧ 0 <= executionTime r
    ∧ queueTime r + executionTime r <= clock w - submitted.
Proof.
  intros H w.
  assert (Hboth : time_ok w ∧ elapsed_ok w).
  { apply (run_invariant (λ w, time_ok w ∧ elapsed_ok w)).
    - intros w' e [Ht He]. split; [by apply time_ok_step | by apply elapsed_ok_step].
    - split; [by destruct (inv_init t0 options w0 H)|].
      apply constructor_inr in H
        as (_ & _ & _ & _ & _ & _ & _ & _ & _ & _ & _ & _ & Hs & _).
      intros i r'. rewrite Hs. by intros ?%elem_of_nil. }
  destruct Hboth as [_ He]. apply He.
Qed.

Lemma reported_times_within_elapsed_witness :
  constructor 0 rate1 = inr w_rate1
  ∧ (1%nat, Resolved (mkJobResult "done" 59990 5))
      ∈ settled (run w_rate1 delayed_job)
  ∧ ∃ submitted, (1%nat, submitted) ∈ accepted (run w_rate1 delayed_job)
      ∧ 0 <= queueTime (mkJobResult "done" 59990 5)
      ∧ 0 <= executionTime (mkJobResult "done" 59990 5)
      ∧ queueTime (mkJobResult "done" 59990 5)
        + executionTime (mkJobResult "done" 59990 5)
        <= clock (run w_rate1 delayed_job) - submitted.
Proof.
  split; [reflexivity|].
  assert (Hin : (1%nat, Resolved (mkJobResult "done" 59990 5))
                  ∈ settled (run w_rate1 delayed_job)).
  { vm_compute. left. }
  split; [exact Hin|].
  exact (reported_times_within_elapsed 0 rate1 w_rate1 delayed_job
           1%nat _ eq_refl Hin).
Defined.

(** ** Dispatch *)

(** X7. A [schedule] call on a queue that is not disposed either
    dispatches at once or enqueues.  With a free concurrency slot the
    pending queue is empty, the new entry is shifted in the same call
    and [active()] grows by one; with every slot taken the entry is
    appended behind the pending ones and nothing else changes. *)
Theorem schedule_dispatches_or_enqueues (t0 : Z) (options : JobQueueOptions)
    (w0 : World) (es : list Event) :
  constructor t0 options = inr w0 →
  let w := run w0 es in
  isDisposed w = false →
  (active w < concurrencyLimit w →
     size_ w = 0
     ∧ size_ (step w Schedule) = 0
     ∧ active (step w Schedule) = active w + 1
     ∧ dequeued (step w Schedule) = dequeued w ++ [(nextId w, clock w)])
  ∧ (active w = concurrencyLimit w →
     queue (step w Schedule) = queue w ++ [mkEntry (nextId w) (clock w)]
     ∧ active (step w Schedule) = active w
     ∧ jobs (step w Schedule) = jobs w).
Proof.
  intros H w Hd. destruct (inv_run t0 options w0 es H) as [_ [Ha Hle Hfull] _].
  fold w in Ha, Hle, Hfull. unfold active, size_. simpl. unfold schedule.
  simpl. rewrite Hd. split.
  - intros Hlt.
    assert (Hq : queue w = []).
    { destruct (queue w) as [|e q] eqn:Hq; [done|].
      assert (concurrencyLimit w <= activeJobs w) by by apply Hfull. lia. }
    rewrite Hq. simpl. unfold processNextJob. simpl.
    destruct (Z.leb_spec (concurrencyLimit w) (activeJobs w)); [lia|]. simpl.
    match goal with |- context [enforceRateLimit ?i ?q ?x] =>
      destruct (enforceRateLimit_cases i q x) as (ph & jst & Hph & ->) end.
    done.
  - intros Heq. unfold processNextJob. simpl.
    destruct (Z.leb_spec (concurrencyLimit w) (activeJobs w)); [|lia].
    by rewrite orb_true_r.
Qed.

Lemma schedule_dispatches_or_enqueues_witness :
  constructor 0 one_slot = inr w_one_slot
  ∧ isDisposed (run w_one_slot [Schedule]) = false
  ∧ (let w := run w_one_slot [Schedule] in
     (active w < concurrencyLimit w →
        size_ w = 0
        ∧ size_ (step w Schedule) = 0
        ∧ active (step w Schedule) = active w + 1
        ∧ dequeued (step w Schedule) = dequeued w ++ [(nextId w, clock w)])
     ∧ (active w = concurrencyLimit w →
        queue (step w Schedule) = queue w ++ [mkEntry (nextId w) (clock w)]
        ∧ active (step w Schedule) = active w
        ∧ jobs (step w Schedule) = jobs w)).
Proof.
  split; [reflexivity|]. split; [reflexivity|].
  exact (schedule_dispatches_or_enqueues 0 one_slot w_one_slot [Schedule]
           eq_refl eq_refl).
Defined.



(** ** Starting the tasks *)

Lemma started_step (w : World) (e : Event) :
  started (step w e) = started w
  ∨ ∃ id qst, e = Resume id ∧ jobs w !! id = Some (Cleared qst)
              ∧ started (step w e) = started w ++ [(id, clock w)].
Proof.
  destruct e as [| |d|id|id|id o|id|id]; simpl.
  - left. unfold schedule. simpl. destruct (isDisposed w); simpl; [done|].
    by open_processNextJob.
  - left. by rewrite dispose_eq.
  - by left.
  - left. unfold rateTimerFires, pushStart. by repeat case_match.
  - unfold executeJob, executeWithTimeout.
    destruct (jobs w !! id) as [[qst| | |]|] eqn:Hl; try by left.
    right. by exists id, qst.
  - left. unfold taskSettles. by repeat case_match.
  - left. unfold timeoutFires. by repeat case_match.
  - left. unfold executeJobSettled. repeat case_match; try done.
    by open_processNextJob.
Qed.

Lemma dequeued_step_mono (w : World) (e : Event) (id : nat) :
  id ∈ (dequeued w).*1 → id ∈ (dequeued (step w e)).*1.
Proof.
  intros Hin. destruct e as [| |d|id'|id'|id' o|id'|id']; simpl.
  - unfold schedule. simpl. destruct (isDisposed w); simpl; [done|].
    open_processNextJob; [done|]. rewrite fmap_app. apply elem_of_app. by left.
  - rewrite dispose_eq. simpl. rewrite fmap_app. apply elem_of_app. by left.
  - done.
  - unfold rateTimerFires, pushStart. by repeat case_match.
  - unfold executeJob, executeWithTimeout. by repeat case_match.
  - unfold taskSettles. by repeat case_match.
  - unfold timeoutFires. by repeat case_match.
  - unfold executeJobSettled. repeat case_match; try done.
    open_processNextJob; [done|]. rewrite fmap_app. apply elem_of_app. by left.
Qed.

Lemma started_ok_step (w : World) (e : Event) :
  ids_ok w → started_ok w → started_ok (step w e).
Proof.
  intros Hids [Hn Hb Hd].
  destruct (started_step w e) as [Heq | (id & qst & -> & Hl & Heq)].
  - rewrite <- Heq in Hn, Hb, Hd. split; [done| |].
    + intros id Hin. by apply begun_step, Hb.
    + intros id Hin. by apply dequeued_step_mono, Hd.
  - assert (Hfresh : id ∉ (started w).*1).
    { intros Hin. specialize (Hb id Hin). unfold begun in Hb.
      by rewrite Hl in Hb. }
    split; rewrite Heq, fmap_app; simpl.
    + apply NoDup_app. split; [done|]. split; [|apply NoDup_singleton].
      by intros i Hin ->%list_elem_of_singleton.
    + intros i [Hin | ->%list_elem_of_singleton]%elem_of_app.
      * by apply (begun_step w (Resume id) i Hids), Hb.
      * unfold begun. simpl. unfold executeJob. rewrite Hl. simpl.
        by rewrite lookup_insert_eq.
    + intros i [Hin | ->%list_elem_of_singleton]%elem_of_app.
      * by apply (dequeued_step_mono w (Resume id) i), Hd.
      * apply (dequeued_step_mono w (Resume id) id),
          (ids_jobs_dequeued w Hids). by rewrite Hl.
Qed.

Lemma started_ok_run (t0 : Z) (options : JobQueueOptions) (w0 : World)
    (es : list Event) :
  constructor t0 options = inr w0 → ids_ok (run w0 es) ∧ started_ok (run w0 es).
Proof.
  intros H. apply (run_invariant (λ w, ids_ok w ∧ started_ok w)).
  - intros w e [Hi Hs]. split; [by apply ids_ok_step | by apply started_ok_step].
  - split; [by destruct (inv_init t0 options w0 H)|].
    apply constructor_inr in H
      as (_ & _ & _ & _ & _ & _ & _ & _ & _ & _ & _ & Hst & _).
    split; rewrite Hst; simpl.
    + apply NoDup_nil_2.
    + by intros id ?%elem_of_nil.
    + by intros id ?%elem_of_nil.
Qed.

(** X9. The task of a job is called at most once, and only for an entry
    that a dispatch attempt has shifted from the queue: no job is run
    twice and no pending job is run. *)
Theorem task_started_at_most_once (t0 : Z) (options : JobQueueOptions)
    (w0 : World) (es : list Event) :
  constructor t0 options = inr w0 →
  let w := run w0 es in
  NoDup (started w).*1
  ∧ (∀ id, id ∈ (started w).*1 → id ∈ (dequeued w).*1)
  ∧ (∀ e, e ∈ queue w → eid e ∉ (started w).*1).
Proof.
  intros H w. destruct (started_ok_run t0 options w0 es H) as [Hi [Hn _ Hd]].
  fold w in Hi, Hn, Hd. repeat split; try done.
  intros e He Hin. apply (ids_dequeued_not_queued w (eid e) Hi); [by apply Hd|].
  by apply list_elem_of_fmap_2.
Qed.

Lemma task_started_at_most_once_witness :
  constructor 0 rate1 = inr w_rate1
  ∧ (let w := run w_rate1 back_to_back in
     NoDup (started w).*1
     ∧ (∀ id, id ∈ (started w).*1 → id ∈ (dequeued w).*1)
     ∧ (∀ e, e ∈ queue w → eid e ∉ (started w).*1)).
Proof.
  split; [reflexivity|].
  exact (task_started_at_most_once 0 rate1 w_rate1 back_to_back eq_refl).
Defined.

(** X10. An entry that [dispose()] finds in the pending queue is never
    run: whatever happens after the disposal, its task is not called. *)
Theorem drained_entry_never_runs (t0 : Z) (options : JobQueueOptions)
    (w0 : World) (es es' : list Event) (e : Entry) :
  constructor t0 options = inr w0 →
  let w := run w0 es in
  e ∈ queue w →
  eid e ∉ (started (run (step w Dispose) es')).*1.
Proof.
  intros H w He.
  destruct (started_ok_run t0 options w0 es H) as [Hi [_ _ Hd]].
  fold w in Hi, Hd.
  assert (Hinv : ids_ok (run (step w Dispose) es')
                 ∧ eid e ∈ (settled (run (step w Dispose) es')).*1
                 ∧ eid e ∉ (started (run (step w Dispose) es')).*1);
    [|by destruct Hinv as (_ & _ & ?)].
  apply (run_invariant (λ w', ids_ok w' ∧ eid e ∈ (settled w').*1
                              ∧ eid e ∉ (started w').*1)).
  - intros w' ev (Hi' & Hs & Hns). split; [by apply ids_ok_step|].
    split; [by apply settled_step_mono|].
    destruct (started_step w' ev) as [-> | (id & qst & -> & Hl & ->)]; [done|].
    rewrite fmap_app, elem_of_app. simpl. rewrite list_elem_of_singleton.
    intros [?| Heq]; [done|]. subst id.
    rewrite (ids_settled_not_running w' Hi' _ Hs) in Hl. done.
  - split; [by apply ids_ok_step|]. simpl. rewrite dispose_eq. simpl. split.
    + rewrite fmap_app, elem_of_app. right. rewrite <- list_fmap_compose.
      by apply (list_elem_of_fmap_2 (λ x, eid x)).
    + intros Hin. apply (ids_dequeued_not_queued w (eid e) Hi); [by apply Hd|].
      by apply list_elem_of_fmap_2.
Qed.

Lemma drained_entry_never_runs_witness :
  constructor 0 one_slot = inr w_one_slot
  ∧ mkEntry 1%nat 0 ∈ queue (run w_one_slot one_running_two_pending)
  ∧ (1%nat ∉ (started (run (step (run w_one_slot one_running_two_pending)
                               Dispose)
                         [Resume 1%nat; Tick 5])).*1).
Proof.
  assert (Hin : mkEntry 1%nat 0 ∈ queue (run w_one_slot one_running_two_pending)).
  { vm_compute. left. }
  split; [reflexivity|]. split; [exact Hin|].
  exact (drained_entry_never_runs 0 one_slot w_one_slot
           one_running_two_pending [Resume 1%nat; Tick 5] (mkEntry 1%nat 0)
           eq_refl Hin).
Defined.

(** ** Where the settlements come from *)

Lemma raced_origin (w : World) (e : Event) (id : nat) (qt st : Z) (o : Outcome) :
  jobs (step w e) !! id = Some (Raced qt st o) →
  jobs w !! id = Some (Raced qt st o) ∨ e = TaskSettles id o
  ∨ o = Threw timeoutMsg.
Proof.
  assert (Hpnj : ∀ w', jobs (processNextJob w') !! id = Some (Raced qt st o) →
                       jobs w' !! id = Some (Raced qt st o)).
  { intros w'. open_processNextJob; [done|].
    destruct (decide (eid next = id)) as [<-|Hne].
    - rewrite lookup_insert_eq. intros [= ->]. by destruct Hph as [?|[? ?]].
    - by rewrite lookup_insert_ne. }
  destruct e as [| |d|id'|id'|id' o'|id'|id']; simpl.
  - unfold schedule. simpl. destruct (isDisposed w); simpl; [by left|].
    intros ?%Hpnj. by left.
  - rewrite dispose_eq. by left.
  - by left.
  - unfold rateTimerFires, pushStart.
    destruct (jobs w !! id') as [[| | |]|] eqn:Hl; try by left.
    case_match; [|by left]. simpl.
    destruct (decide (id' = id)) as [<-|Hne];
      [by rewrite lookup_insert_eq | rewrite lookup_insert_ne by done; by left].
  - unfold executeJob, executeWithTimeout.
    destruct (jobs w !! id') as [[| | |]|] eqn:Hl; try by left. simpl.
    destruct (decide (id' = id)) as [<-|Hne];
      [by rewrite lookup_insert_eq | rewrite lookup_insert_ne by done; by left].
  - unfold taskSettles.
    destruct (jobs w !! id') as [[| | |]|] eqn:Hl; try by left. simpl.
    destruct (decide (id' = id)) as [<-|Hne].
    + rewrite lookup_insert_eq. intros [= -> -> ->]. right. by left.
    + rewrite lookup_insert_ne by done. by left.
  - unfold timeoutFires.
    destruct (timeouts w !! id') as [due|]; [|by left].
    case_match; [|by left]. simpl.
    destruct (jobs w !! id') as [[| | |]|] eqn:Hl; try by left. simpl.
    destruct (decide (id' = id)) as [<-|Hne].
    + rewrite lookup_insert_eq. intros [= -> -> <-]. right. by right.
    + rewrite lookup_insert_ne by done. by left.
  - unfold executeJobSettled.
    destruct (jobs w !! id') as [[| | |qt' st' o']|] eqn:Hl; try by left.
    intros Hr%Hpnj. simpl in Hr. apply lookup_delete_Some in Hr as [_ Hr].
    by left.
Qed.

Lemma settled_origin (w : World) (e : Event) (id : nat) (s : Settlement) :
  (id, s) ∈ settled (step w e) →
  (id, s) ∈ settled w ∨ s = Rejected disposedMsg
  ∨ ∃ qt st o, jobs w !! id = Some (Raced qt st o)
               ∧ s = deliver o qt (clock w - st).
Proof.
  destruct e as [| |d|id'|id'|id' o'|id'|id']; simpl.
  - unfold schedule. simpl. destruct (isDisposed w); simpl.
    + intros [?|Hin%list_elem_of_singleton]%elem_of_app; [by left|].
      inversion Hin. right. by left.
    + rewrite processNextJob_settled. by left.
  - rewrite dispose_eq. simpl. intros [?|Hin]%elem_of_app; [by left|].
    apply list_elem_of_fmap in Hin as (x & Heq & _). inversion Heq.
    right. by left.
  - by left.
  - unfold rateTimerFires, pushStart. repeat case_match; by left.
  - unfold executeJob, executeWithTimeout. repeat case_match; by left.
  - unfold taskSettles. repeat case_match; by left.
  - unfold timeoutFires. repeat case_match; by left.
  - unfold executeJobSettled.
    destruct (jobs w !! id') as [[| | |qt st o]|] eqn:Hl; try by left.
    rewrite processNextJob_settled. simpl.
    intros [?|Hin%list_elem_of_singleton]%elem_of_app; [by left|].
    inversion Hin; subst. right. right. by exists qt, st, o.
Qed.

Lemma provenance_step (es : list Event) (w : World) (e : Event) :
  provenance es w → provenance (es ++ [e]) (step w e).
Proof.
  intros [Hr Hs]. split.
  - intros id qt st o Hl.
    destruct (raced_origin w e id qt st o Hl) as [Hold | [-> | ->]].
    + destruct (Hr id qt st o Hold) as [?|?]; [by left|].
      right. by apply elem_of_snoc_l.
    + right. apply elem_of_snoc_r.
    + by left.
  - intros id s Hin.
    destruct (settled_origin w e id s Hin) as [Hold | [-> | (qt & st & o & Hl & ->)]].
    + specialize (Hs id s Hold). destruct s as [r|msg]; simpl in *.
      * by apply elem_of_snoc_l.
      * destruct Hs as [?|[?|?]]; auto using elem_of_snoc_l.
    + simpl. by left.
    + destruct (Hr id qt st o Hl) as [-> | Hev].
      * simpl. right. by left.
      * destruct o as [v|msg]; simpl.
        -- by apply elem_of_snoc_l.
        -- right. right. by apply elem_of_snoc_l.
Qed.

(** X11. Nothing is invented for the caller.  A promise is resolved
    only with a value that the task of that very job returned, and it is
    rejected only with "Queue has been disposed", with "Job timed out",
    or with the error that the task of that very job threw, unchanged. *)
Theorem settlements_come_from_the_task (t0 : Z) (options : JobQueueOptions)
    (w0 : World) (es : list Event) :
  constructor t0 options = inr w0 →
  ∀ id s, (id, s) ∈ settled (run w0 es) →
    match s with
    | Resolved r => TaskSettles id (Returned (result r)) ∈ es
    | Rejected msg =>
        msg = "Queue has been disposed"%string ∨ msg = "Job timed out"%string
        ∨ TaskSettles id (Threw msg) ∈ es
    end.
Proof.
  intros H.
  assert (Hp : provenance es (run w0 es)); [|by destruct Hp].
  induction es as [|e es IH] using rev_ind.
  - apply constructor_inr in H
      as (_ & _ & _ & _ & _ & _ & _ & Hj & _ & _ & _ & _ & Hs & _).
    split; simpl.
    + intros id qt st o. by rewrite Hj, lookup_empty.
    + intros id s. rewrite Hs. by intros ?%elem_of_nil.
  - rewrite run_snoc. by apply provenance_step.
Qed.

Lemma settlements_come_from_the_task_witness :
  constructor 0 rate1 = inr w_rate1
  ∧ (∀ id s, (id, s) ∈ settled (run w_rate1 delayed_job) →
       match s with
       | Resolved r => TaskSettles id (Returned (result r)) ∈ delayed_job
       | Rejected msg =>
           msg = "Queue has been disposed"%string
           ∨ msg = "Job timed out"%string
           ∨ TaskSettles id (Threw msg) ∈ delayed_job
       end).
Proof.
  split; [reflexivity|].
  exact (settlements_come_from_the_task 0 rate1 w_rate1 delayed_job eq_refl).
Defined.

(** ** The timeout timers *)




(** ** After the disposal *)

(** X13. After [dispose()] the queue only winds down: whatever happens
    next, no entry is shifted any more, [size()] stays 0 and [active()]
    never grows. *)
Theorem disposed_queue_winds_down (w : World) (es : list Event) (e : Event) :
  let w' := run (step w Dispose) es in
  size_ w' = 0
  ∧ size_ (step w' e) = 0
  ∧ dequeued (step w' e) = dequeued w'
  ∧ active (step w' e) <= active w'.
Proof.
  intros w'.
  assert (Hc : closed w').
  { apply closed_run. simpl. rewrite dispose_eq. by split. }
  destruct (closed_step w' e Hc) as [_ Hq']. destruct Hc as [Hd Hq].
  unfold size_, active. rewrite Hq, Hq'. repeat split; try done.
  - destruct e as [| |d|id|id|id o|id|id]; simpl.
    + unfold schedule. simpl. by rewrite Hd.
    + rewrite dispose_eq, Hq. simpl. by rewrite app_nil_r.
    + done.
    + unfold rateTimerFires, pushStart. by repeat case_match.
    + unfold executeJob, executeWithTimeout. by repeat case_match.
    + unfold taskSettles. by repeat case_match.
    + unfold timeoutFires. by repeat case_match.
    + unfold executeJobSettled. repeat case_match; try done.
      unfold processNextJob. simpl. by rewrite Hq.
  - destruct e as [| |d|id|id|id o|id|id]; simpl.
    + unfold schedule. simpl. by rewrite Hd.
    + by rewrite dispose_eq.
    + done.
    + unfold rateTimerFires, pushStart. by repeat case_match.
    + unfold executeJob, executeWithTimeout. by repeat case_match.
    + unfold taskSettles. by repeat case_match.
    + unfold timeoutFires. by repeat case_match.
    + unfold executeJobSettled. repeat case_match; try done.
      unfold processNextJob. simpl. rewrite Hq. simpl. lia.
Qed.
